(** * BengoLink: the recording-to-translation pipeline

    A shallow embedding of [src/types.ts], of the hook [useLiveTranslator]
    and of the handlers of [App] that drive it ([src/App.tsx]), and of the
    byte and sample encoders of [audioUtils].

    The hook's React state, its refs, the browser objects it holds
    (media streams, audio contexts, media recorders) and the callbacks that
    are outstanding on the event loop are one record, [World].  Every
    piece of code that runs between two suspension points of the source
    (an [await], a queued browser event, a [requestAnimationFrame]) is one
    function in the monad [M], which threads the world and carries the
    exception a [throw] raises.  What the environment answers at a
    suspension point (the permission prompt, the file reader, the remote
    model, the clock) is an argument of the function that resumes there. *)

From Stdlib Require Import ZArith QArith Qround Lia ZifyNat Ascii String.
From stdpp Require Import base strings list pretty.

Local Open Scope string_scope.
Local Open Scope list_scope.
Local Open Scope Z_scope.

(** ** src/types.ts *)

Inductive RecorderState := IDLE | RECORDING | PROCESSING | ERROR.

#[global] Instance RecorderState_eq_dec : EqDecision RecorderState.
Proof. solve_decision. Defined.

Record TranscriptionItem := mkItem {
  id : string;
  text : string;
  isUser : bool;      (* true = Bengali input (Text), false = English translation *)
  timestamp : Z       (* Date, as milliseconds *)
}.

(** ** JavaScript values the hook inspects *)

(** A thrown value, through the three observations the source makes of it:
    [e.message], [e.status] and [e.toString()]. *)
Record JsError := mkError {
  message : option string;
  status : option Z;
  toString : string
}.

(** [String.prototype.includes]. *)
Fixpoint includes (s sub : string) : bool :=
  String.prefix sub s ||
  match s with
  | EmptyString => false
  | String _ s' => includes s' sub
  end.

(** A string is held as its UTF-8 bytes, as a string literal of this file
    is.

    [String.prototype.trim] strips the white space and the line terminators
    of the language: U+0009 to U+000D, U+0020, U+00A0, U+1680, U+2000 to
    U+200A, U+2028, U+2029, U+202F, U+205F, U+3000 and U+FEFF.  In UTF-8
    these are one byte, the two bytes C2 A0, or three bytes. *)
Definition is_space (a : ascii) : bool :=
  let n := nat_of_ascii a in
  ((9 <=? n) && (n <=? 13))%nat || (n =? 32)%nat.

Definition is_space2 (a b : ascii) : bool :=
  ((nat_of_ascii a =? 194) && (nat_of_ascii b =? 160))%nat.           (* U+00A0 *)

Definition is_space3 (a b c : ascii) : bool :=
  let a := nat_of_ascii a in
  let b := nat_of_ascii b in
  let c := nat_of_ascii c in
  (((a =? 225) && (b =? 154) && (c =? 128))                           (* U+1680 *)
   || ((a =? 226) && (b =? 128)
       && (((128 <=? c) && (c <=? 138))                     (* U+2000 to U+200A *)
           || (c =? 168) || (c =? 169)                        (* U+2028, U+2029 *)
           || (c =? 175)))                                            (* U+202F *)
   || ((a =? 226) && (b =? 129) && (c =? 159))                        (* U+205F *)
   || ((a =? 227) && (b =? 128) && (c =? 128))                        (* U+3000 *)
   || ((a =? 239) && (b =? 187) && (c =? 191)))%nat.                  (* U+FEFF *)

(** The white space at the start of [s] is removed.  With [backwards], [s]
    is a string read from its end, and so are the bytes of a character. *)
Fixpoint strip (backwards : bool) (s : string) : string :=
  match s with
  | String a s1 =>
      if is_space a then strip backwards s1
      else
        match s1 with
        | String b s2 =>
            if (if backwards then is_space2 b a else is_space2 a b)
            then strip backwards s2
            else
              match s2 with
              | String c s3 =>
                  if (if backwards then is_space3 c b a else is_space3 a b c)
                  then strip backwards s3
                  else s
              | EmptyString => s
              end
        | EmptyString => s
        end
  | EmptyString => EmptyString
  end.

Definition trim_start (s : string) : string := strip false s.

Definition trim (s : string) : string :=
  String.rev (strip true (String.rev (trim_start s))).

(** Truthiness of a string-valued expression that may be [undefined]. *)
Definition truthy (o : option string) : bool :=
  match o with
  | Some s => negb (String.eqb s "")
  | None => false
  end.

(** [a || b] on such expressions. *)
Definition or_else (o : option string) (d : string) : string :=
  match o with
  | Some s => if String.eqb s "" then d else s
  | None => d
  end.

(** The response of [ai.models.generateContent]: only [text] is read. *)
Record GenerateContentResponse := mkResponse { r_text : option string }.

Inductive Contents :=
| AudioParts (mimeType data prompt : string)
| TextContents (t : string).

Record GenerateContentRequest := mkRequest {
  model : string;
  contents : Contents;
  systemInstruction : string
}.

(** How a promise settles. *)
Inductive Settled (A : Type) :=
| Fulfilled (a : A)
| Rejected (e : JsError).
Arguments Fulfilled {A} a.
Arguments Rejected {A} e.

(** ** Browser objects *)

Inductive MediaStreamTrackState := live | ended.
Inductive AudioContextState := running | closed.
Inductive RecordingState := inactive | recording.

#[global] Instance MediaStreamTrackState_eq_dec : EqDecision MediaStreamTrackState.
Proof. solve_decision. Defined.
#[global] Instance RecordingState_eq_dec : EqDecision RecordingState.
Proof. solve_decision. Defined.

(** A [MediaStream] is the list of its tracks ([getTracks()]). *)
Abbreviation MediaStream := (list MediaStreamTrackState) (only parsing).

(** [stream.active]. *)
Definition active (st : MediaStream) : bool :=
  existsb (fun t => bool_decide (t = live)) st.

Definition active_tracks (st : MediaStream) : nat :=
  length (filter (fun t => t = live) st).

Record MediaRecorder := mkRecorder {
  mr_state : RecordingState;
  mr_stream : nat;
  mr_mimeType : string      (* also the [mimeType] its [onstop] closes over *)
}.

(** A [Blob], as its bytes. *)
Abbreviation Blob := string (only parsing).

(** ** Outstanding callbacks and observable calls *)

(** A suspended piece of the hook, with the variables its continuation
    closes over. *)
Inductive Pending :=
| AwaitUserMedia
    (* startRecording at [await getUserMedia] *)
| AnimationFrame
    (* updateVolume, scheduled by [requestAnimationFrame] *)
| RecorderStop (r : nat)
    (* the [stop] event [recorder.stop()] queues *)
| AwaitBase64 (mimeType : string) (audioBlob : Blob)
    (* handleRecordingStop at [await blobToBase64] *)
| AwaitTranslateAudio (botMsgId mimeType base64Audio : string)
    (* translateAudio at [await generateContent] *)
| AwaitTranslateText (botMsgId text : string).
    (* translateText at [await generateContent] *)

Inductive Effect :=
| GetUserMedia
| TrackStop (stream track : nat)
| ContextClose (ctx : nat)
| RecorderStarted (r : nat)
| RecorderStopped (r : nat)
| GenerateContent (req : GenerateContentRequest)
| Wait (ms : Z)
| ConsoleWarn (msg : string)
| ConsoleError (msg : string).

(** ** The world *)

Record World := mkWorld {
  (* useState *)
  recorderState : RecorderState;
  volume : Q;
  transcriptions : list TranscriptionItem;
  (* useRef *)
  audioContextRef : option nat;
  analyserRef : option nat;
  streamRef : option nat;
  mediaRecorderRef : option nat;
  audioChunksRef : list Blob;
  (* browser objects, by handle *)
  streams : list MediaStream;
  contexts : list AudioContextState;
  recorders : list MediaRecorder;
  (* the event loop and what has been called so far *)
  tasks : list Pending;
  log : list Effect
}.

Definition initial : World :=
  mkWorld IDLE 0%Q [] None None None None [] [] [] [] [] [].

Definition with_recorderState (v : RecorderState) (w : World) : World :=
  mkWorld v (volume w) (transcriptions w) (audioContextRef w) (analyserRef w)
    (streamRef w) (mediaRecorderRef w) (audioChunksRef w) (streams w)
    (contexts w) (recorders w) (tasks w) (log w).

Definition with_volume (v : Q) (w : World) : World :=
  mkWorld (recorderState w) v (transcriptions w) (audioContextRef w)
    (analyserRef w) (streamRef w) (mediaRecorderRef w) (audioChunksRef w)
    (streams w) (contexts w) (recorders w) (tasks w) (log w).

Definition with_transcriptions (v : list TranscriptionItem) (w : World) : World :=
  mkWorld (recorderState w) (volume w) v (audioContextRef w) (analyserRef w)
    (streamRef w) (mediaRecorderRef w) (audioChunksRef w) (streams w)
    (contexts w) (recorders w) (tasks w) (log w).

Definition with_audioContextRef (v : option nat) (w : World) : World :=
  mkWorld (recorderState w) (volume w) (transcriptions w) v (analyserRef w)
    (streamRef w) (mediaRecorderRef w) (audioChunksRef w) (streams w)
    (contexts w) (recorders w) (tasks w) (log w).

Definition with_analyserRef (v : option nat) (w : World) : World :=
  mkWorld (recorderState w) (volume w) (transcriptions w) (audioContextRef w)
    v (streamRef w) (mediaRecorderRef w) (audioChunksRef w) (streams w)
    (contexts w) (recorders w) (tasks w) (log w).

Definition with_streamRef (v : option nat) (w : World) : World :=
  mkWorld (recorderState w) (volume w) (transcriptions w) (audioContextRef w)
    (analyserRef w) v (mediaRecorderRef w) (audioChunksRef w) (streams w)
    (contexts w) (recorders w) (tasks w) (log w).

Definition with_mediaRecorderRef (v : option nat) (w : World) : World :=
  mkWorld (recorderState w) (volume w) (transcriptions w) (audioContextRef w)
    (analyserRef w) (streamRef w) v (audioChunksRef w) (streams w)
    (contexts w) (recorders w) (tasks w) (log w).

Definition with_audioChunksRef (v : list Blob) (w : World) : World :=
  mkWorld (recorderState w) (volume w) (transcriptions w) (audioContextRef w)
    (analyserRef w) (streamRef w) (mediaRecorderRef w) v (streams w)
    (contexts w) (recorders w) (tasks w) (log w).

Definition with_streams (v : list MediaStream) (w : World) : World :=
  mkWorld (recorderState w) (volume w) (transcriptions w) (audioContextRef w)
    (analyserRef w) (streamRef w) (mediaRecorderRef w) (audioChunksRef w) v
    (contexts w) (recorders w) (tasks w) (log w).

Definition with_contexts (v : list AudioContextState) (w : World) : World :=
  mkWorld (recorderState w) (volume w) (transcriptions w) (audioContextRef w)
    (analyserRef w) (streamRef w) (mediaRecorderRef w) (audioChunksRef w)
    (streams w) v (recorders w) (tasks w) (log w).

Definition with_recorders (v : list MediaRecorder) (w : World) : World :=
  mkWorld (recorderState w) (volume w) (transcriptions w) (audioContextRef w)
    (analyserRef w) (streamRef w) (mediaRecorderRef w) (audioChunksRef w)
    (streams w) (contexts w) v (tasks w) (log w).

Definition with_tasks (v : list Pending) (w : World) : World :=
  mkWorld (recorderState w) (volume w) (transcriptions w) (audioContextRef w)
    (analyserRef w) (streamRef w) (mediaRecorderRef w) (audioChunksRef w)
    (streams w) (contexts w) (recorders w) v (log w).

Definition with_log (v : list Effect) (w : World) : World :=
  mkWorld (recorderState w) (volume w) (transcriptions w) (audioContextRef w)
    (analyserRef w) (streamRef w) (mediaRecorderRef w) (audioChunksRef w)
    (streams w) (contexts w) (recorders w) (tasks w) v.

(** ** The monad: state, and the exception a [throw] raises

    The world a computation leaves behind is kept when it throws, as in
    JavaScript. *)

Definition M (A : Type) : Type := World -> (JsError + A) * World.

#[global] Instance M_ret : MRet M := fun A a w => (inr a, w).

#[global] Instance M_bind : MBind M := fun A B f m w =>
  match m w with
  | (inr a, w') => f a w'
  | (inl e, w') => (inl e, w')
  end.

Definition throw {A} (e : JsError) : M A := fun w => (inl e, w).

(** [try { m } catch (e) { h e }]. *)
Definition try_catch {A} (m : M A) (h : JsError -> M A) : M A := fun w =>
  match m w with
  | (inr a, w') => (inr a, w')
  | (inl e, w') => h e w'
  end.

(** [try { m } finally { f }]. *)
Definition try_finally {A} (m : M A) (f : M unit) : M A := fun w =>
  match m w with
  | (r, w') =>
      match f w' with
      | (inr _, w'') => (r, w'')
      | (inl e, w'') => (inl e, w'')
      end
  end.

Definition gets {A} (f : World -> A) : M A := fun w => (inr (f w), w).
Definition modify (f : World -> World) : M unit := fun w => (inr tt, f w).

Definition emit (e : Effect) : M unit :=
  modify (fun w => with_log (log w ++ [e]) w).

(** Register a suspended continuation on the event loop. *)
Definition suspend (p : Pending) : M unit :=
  modify (fun w => with_tasks (tasks w ++ [p]) w).

(** An operation of the environment that may throw. *)
Definition may_throw (o : option JsError) : M unit :=
  match o with
  | Some e => throw e
  | None => mret tt
  end.

(** [await p], once [p] has settled. *)
Definition await {A} (p : Settled A) : M A :=
  match p with
  | Fulfilled a => mret a
  | Rejected e => throw e
  end.

(** React state setters; the second is the functional form [set(prev => f prev)]. *)
Definition setRecorderState (v : RecorderState) : M unit :=
  modify (with_recorderState v).
Definition setRecorderState_fn (f : RecorderState -> RecorderState) : M unit :=
  modify (fun w => with_recorderState (f (recorderState w)) w).
Definition setVolume (v : Q) : M unit := modify (with_volume v).
Definition setTranscriptions (f : list TranscriptionItem -> list TranscriptionItem) : M unit :=
  modify (fun w => with_transcriptions (f (transcriptions w)) w).

(** ** The hook [useLiveTranslator] *)

Definition MODEL_NAME : string := "gemini-2.5-flash".

Definition SYSTEM_INSTRUCTION_TRANSLATE : string := "
You are a fast Bengali-to-English translator. 
1. I will provide an audio file containing Bengali speech.
2. Translate it directly into English.
3. Output ONLY the English translation. No explanations.
".

Definition maxRetries : nat := 3.

(** [analyser.fftSize = 256], so [frequencyBinCount] is 128. *)
Definition frequencyBinCount : nat := 128.

(** [getByteFrequencyData] fills a [Uint8Array] of that length. *)
Definition getByteFrequencyData (sample : nat -> Z) : list Z :=
  (fun i => sample i mod 256) <$> seq 0 frequencyBinCount.

(** Whether an async function ran to its end or stopped at an [await]. *)
Inductive Progress := Returned | Suspended.

(** The part of [try { body } catch (e) { h e } finally { f }] that runs
    once the body is entered or resumed: if the body stops at an [await]
    again, neither block has run yet. *)
Definition resume_try (body : M Progress) (h : JsError -> M unit) (f : M unit)
  : M unit := fun w =>
  match body w with
  | (inr Suspended, w') => (inr tt, w')
  | (inr Returned, w') => f w'
  | (inl e, w') => try_finally (h e) f w'
  end.

(** What the browser answers while [startRecording] sets capture up. *)
Record CaptureSetup := mkSetup {
  userMedia : Settled nat;            (* the granted stream, by its number of tracks *)
  context_error : option JsError;     (* [new AudioContext()] throws *)
  graph_error : option JsError;       (* createMediaStreamSource .. connect throws *)
  frequencyData : nat -> Z;           (* what the first updateVolume reads *)
  mp4_supported : bool;
  ogg_supported : bool;
  recorder_error : option JsError;    (* [new MediaRecorder(..)] throws *)
  start_error : option JsError        (* [recorder.start()] throws *)
}.

Definition isQuota (e : JsError) : bool :=
  match message e with
  | Some m => includes m "429"
  | None => false
  end
  || bool_decide (status e = Some 429)
  || includes (toString e) "RESOURCE_EXHAUSTED".

Definition set_text (t : string) (item : TranscriptionItem) : TranscriptionItem :=
  mkItem (id item) t (isUser item) (timestamp item).

(** [prev.map(item => item.id === botMsgId ? { ...item, text } : item)] *)
Definition resolve (botMsgId t : string) (prev : list TranscriptionItem)
  : list TranscriptionItem :=
  (fun item => if bool_decide (id item = botMsgId) then set_text t item else item)
    <$> prev.

(** Allocation of browser objects and the calls that change them. *)
Definition new_stream (n : nat) : M nat := fun w =>
  (inr (length (streams w)), with_streams (streams w ++ [replicate n live]) w).

Definition new_context : M nat := fun w =>
  (inr (length (contexts w)), with_contexts (contexts w ++ [running]) w).

Definition new_recorder (stream : nat) (mimeType : string) : M nat := fun w =>
  (inr (length (recorders w)),
   with_recorders (recorders w ++ [mkRecorder inactive stream mimeType]) w).

Definition set_recorder_state (r : nat) (s : RecordingState) : M unit :=
  modify (fun w =>
    match recorders w !! r with
    | Some rec =>
        with_recorders
          (<[r := mkRecorder s (mr_stream rec) (mr_mimeType rec)]> (recorders w)) w
    | None => w
    end).

(** [stream.getTracks().forEach(track => track.stop())] *)
Definition stop_tracks (h : nat) : M unit :=
  modify (fun w =>
    match streams w !! h with
    | Some st =>
        with_log (log w ++ imap (fun i _ => TrackStop h i) st)
          (with_streams (<[h := (fun _ => ended) <$> st]> (streams w)) w)
    | None => w
    end).

Definition close_context (c : nat) : M unit :=
  modify (fun w => with_contexts (<[c := closed]> (contexts w)) w) ;;
  emit (ContextClose c).

Definition cleanupAudio : M unit :=
  s ← gets streamRef;
  match s with
  | Some h => stop_tracks h ;; modify (with_streamRef None)
  | None => mret tt
  end ;;
  c ← gets audioContextRef;
  match c with
  | Some h => close_context h ;; modify (with_audioContextRef None)
  | None => mret tt
  end ;;
  setVolume 0%Q.

Definition stream_active (w : World) : bool :=
  match streamRef w with
  | Some h =>
      match streams w !! h with
      | Some st => active st
      | None => false
      end
  | None => false
  end.

Definition sum_list_Z (l : list Z) : Z := foldr Z.add 0 l.

Definition updateVolume (sample : nat -> Z) : M unit :=
  a ← gets analyserRef;
  act ← gets stream_active;
  if negb (bool_decide (is_Some a)) || negb act then mret tt
  else
    let dataArray := getByteFrequencyData sample in
    setVolume (inject_Z (sum_list_Z dataArray) / inject_Z (Z.of_nat (length dataArray)))%Q ;;
    suspend AnimationFrame.

Definition clearHistory : M unit := setTranscriptions (fun _ => []).

Section Hook.

(** [process.env.API_KEY] *)
Variable API_KEY : option string.

(** *** Recording *)

(** [startRecording], up to [await getUserMedia]. *)
Definition startRecording : M unit :=
  if negb (truthy API_KEY) then
    emit (ConsoleError "API Key missing") ;;
    setRecorderState ERROR
  else
    emit GetUserMedia ;;
    suspend AwaitUserMedia.

Definition start_recorder (r : nat) : M unit :=
  set_recorder_state r recording ;;
  emit (RecorderStarted r).

(** [startRecording], from the point where [getUserMedia] has settled. *)
Definition startRecording_resume (env : CaptureSetup) : M unit :=
  try_catch
    ((* 1. Get Stream *)
     n ← await (userMedia env);
     stream ← new_stream n;
     modify (with_streamRef (Some stream)) ;;
     (* 2. Setup Visualizer *)
     may_throw (context_error env) ;;
     ctx ← new_context;
     modify (with_audioContextRef (Some ctx)) ;;
     may_throw (graph_error env) ;;
     modify (with_analyserRef (Some ctx)) ;;
     updateVolume (frequencyData env) ;;
     (* 3. Setup Recorder *)
     let mimeType :=
       if mp4_supported env then "audio/mp4"
       else if ogg_supported env then "audio/ogg"
       else "audio/webm" in
     may_throw (recorder_error env) ;;
     recorder ← new_recorder stream mimeType;
     modify (with_mediaRecorderRef (Some recorder)) ;;
     modify (with_audioChunksRef []) ;;
     may_throw (start_error env) ;;
     start_recorder recorder ;;
     setRecorderState RECORDING)
    (fun error =>
       emit (ConsoleError "Failed to start recording:") ;;
       setRecorderState ERROR).

(** [recorder.stop()]: the recorder becomes inactive and its [stop] event is
    queued. *)
Definition stop_recorder (r : nat) : M unit :=
  set_recorder_state r inactive ;;
  emit (RecorderStopped r) ;;
  suspend (RecorderStop r).

Definition stopRecording : M unit :=
  ref ← gets mediaRecorderRef;
  rs ← gets recorders;
  match ref with
  | Some r =>
      match rs !! r with
      | Some rec =>
          if bool_decide (mr_state rec ≠ inactive) then
            stop_recorder r ;;
            setRecorderState PROCESSING
          else mret tt
      | None => mret tt
      end
  | None => mret tt
  end.

(** [recorder.ondataavailable] *)
Definition ondataavailable (data : Blob) : M unit :=
  if (0 <? String.length data)%nat then
    modify (fun w => with_audioChunksRef (audioChunksRef w ++ [data]) w)
  else mret tt.

(** [handleRecordingStop], up to [await blobToBase64]. *)
Definition handleRecordingStop (mimeType : string) : M unit :=
  chunks ← gets audioChunksRef;
  let audioBlob := foldr String.append "" chunks in
  suspend (AwaitBase64 mimeType audioBlob).

(** The [stop] event of recorder [r]: the last [dataavailable], then [onstop]. *)
Definition recorder_onstop (r : nat) (data : Blob) : M unit :=
  rs ← gets recorders;
  match rs !! r with
  | Some rec => ondataavailable data ;; handleRecordingStop (mr_mimeType rec)
  | None => mret tt
  end.

Definition handleRecordingStop_catch (err : JsError) : M unit :=
  emit (ConsoleError "Error processing audio:") ;;
  setRecorderState ERROR.

Definition handleRecordingStop_finally : M unit :=
  cleanupAudio ;;
  (* Only set to IDLE if not ERROR *)
  setRecorderState_fn (fun prev => if bool_decide (prev = ERROR) then prev else IDLE).

(** *** Translation *)

Definition audio_request (base64Audio mimeType : string) : GenerateContentRequest :=
  mkRequest MODEL_NAME
    (AudioParts mimeType base64Audio "Translate this Bengali speech to English.")
    SYSTEM_INSTRUCTION_TRANSLATE.

Definition text_request (t : string) : GenerateContentRequest :=
  mkRequest MODEL_NAME (TextContents t) SYSTEM_INSTRUCTION_TRANSLATE.

(** The [while (attempt < maxRetries)] loop of [translateAudio] and of
    [translateText], which differ in the request only.  [attempt] grows by
    one on each [continue], so the recursion is on [maxRetries - attempt];
    [answers a] is how the call made with [attempt = a] settles.  The result
    is the value of [response] when the loop is left.  Between its [await]s
    the loop reads and writes local variables only, so the loop is one
    function of how its calls settle; the log records each call and each
    [wait] in the order of the source. *)
Fixpoint generate_loop (req : GenerateContentRequest)
    (answers : nat -> Settled GenerateContentResponse)
    (remaining : nat) (delayMs : Z) : M (option GenerateContentResponse) :=
  match remaining with
  | O => mret None
  | S remaining' =>
      let attempt := (maxRetries - remaining)%nat in
      emit (GenerateContent req) ;;
      match answers attempt with
      | Fulfilled response => mret (Some response)        (* break *)
      | Rejected e =>
          if isQuota e && (attempt <? maxRetries - 1)%nat then
            emit (ConsoleWarn ("Attempt " +:+ pretty (attempt + 1)%nat
                               +:+ " failed (429). Retrying in "
                               +:+ pretty delayMs +:+ "ms...")) ;;
            emit (Wait delayMs) ;;
            generate_loop req answers remaining' (delayMs * 2)
          else throw e
      end
  end.

(** The same loop, entered where its first call has settled: the call
    itself is made before the function stops at the [await].
    [generate_loop req answers maxRetries 1000] is the call followed by
    this. *)
Definition generate_loop_answered (req : GenerateContentRequest)
    (answers : nat -> Settled GenerateContentResponse)
    : M (option GenerateContentResponse) :=
  match answers 0%nat with
  | Fulfilled response => mret (Some response)            (* break *)
  | Rejected e =>
      if isQuota e && (0 <? maxRetries - 1)%nat then
        emit (ConsoleWarn ("Attempt " +:+ pretty (0 + 1)%nat
                           +:+ " failed (429). Retrying in "
                           +:+ pretty 1000 +:+ "ms...")) ;;
        emit (Wait 1000) ;;
        generate_loop req answers (maxRetries - 1) (1000 * 2)
      else throw e
  end.

Definition errorMessage (error : JsError) : string :=
  if isQuota error
  then "Service busy (Quota Exceeded). Please try again in a moment."
  else "Error during translation.".

(** [translateAudio], up to the first [await generateContent]: the call
    is made, and the function stops until it settles. *)
Definition translateAudio (base64Audio mimeType : string) (now date : Z)
  : M Progress :=
  if negb (truthy API_KEY) then mret Returned
  else
    (* Add placeholder *)
    let botMsgId := pretty now in
    setTranscriptions (fun prev => (prev ++ [mkItem botMsgId "Translating..." false date])%list) ;;
    emit (GenerateContent (audio_request base64Audio mimeType)) ;;
    suspend (AwaitTranslateAudio botMsgId mimeType base64Audio) ;;
    mret Suspended.

(** The [try] and [catch] blocks of [translateAudio] as one piece, from
    the first call on: what the translate call does once its placeholder
    is there, as a function of how the calls settle. *)
Definition translateAudio_resume (botMsgId mimeType base64Audio : string)
    (answers : nat -> Settled GenerateContentResponse) : M unit :=
  try_catch
    (response ← generate_loop (audio_request base64Audio mimeType) answers maxRetries 1000;
     let translation := or_else (response ≫= r_text) "Could not translate audio." in
     setTranscriptions (resolve botMsgId translation))
    (fun error =>
       emit (ConsoleError "Translation error:") ;;
       setTranscriptions (resolve botMsgId (errorMessage error))).

(** [translateAudio], from the point where its first call has settled to
    its end: what runs when the function is resumed. *)
Definition translateAudio_answered (botMsgId mimeType base64Audio : string)
    (answers : nat -> Settled GenerateContentResponse) : M unit :=
  try_catch
    (response ← generate_loop_answered (audio_request base64Audio mimeType) answers;
     let translation := or_else (response ≫= r_text) "Could not translate audio." in
     setTranscriptions (resolve botMsgId translation))
    (fun error =>
       emit (ConsoleError "Translation error:") ;;
       setTranscriptions (resolve botMsgId (errorMessage error))).

(** [handleRecordingStop], from the point where [blobToBase64] has settled. *)
Definition handleRecordingStop_encoded (mimeType : string)
    (base64 : Settled string) (now date : Z) : M unit :=
  resume_try
    (base64Audio ← await base64;
     translateAudio base64Audio mimeType now date)
    handleRecordingStop_catch
    handleRecordingStop_finally.

(** [handleRecordingStop] with the translate step as one piece, from the
    first call of [translateAudio] on. *)
Definition handleRecordingStop_settled (botMsgId mimeType base64Audio : string)
    (answers : nat -> Settled GenerateContentResponse) : M unit :=
  resume_try
    (translateAudio_resume botMsgId mimeType base64Audio answers ;; mret Returned)
    handleRecordingStop_catch
    handleRecordingStop_finally.

(** [handleRecordingStop], from the point where the first call of
    [translateAudio] has settled: what runs when the function is resumed. *)
Definition handleRecordingStop_answered (botMsgId mimeType base64Audio : string)
    (answers : nat -> Settled GenerateContentResponse) : M unit :=
  resume_try
    (translateAudio_answered botMsgId mimeType base64Audio answers ;; mret Returned)
    handleRecordingStop_catch
    handleRecordingStop_finally.

(** [translateText], up to the first [await generateContent]: the call is
    made, and the function stops until it settles.  [now1] and [now2] are
    its two readings of [Date.now()]. *)
Definition translateText (t : string) (now1 date1 now2 date2 : Z) : M Progress :=
  if negb (truthy API_KEY) || negb (truthy (Some (trim t))) then mret Returned
  else
    let userMsgId := pretty now1 in
    setTranscriptions (fun prev => (prev ++ [mkItem userMsgId t true date1])%list) ;;
    (* Pre-create the bot message so we can update it or show error on it *)
    let botMsgId := pretty (now2 + 1) in
    setTranscriptions (fun prev => (prev ++ [mkItem botMsgId "Translating..." false date2])%list) ;;
    emit (GenerateContent (text_request t)) ;;
    suspend (AwaitTranslateText botMsgId t) ;;
    mret Suspended.

(** The [try] and [catch] blocks of [translateText] as one piece, from the
    first call on. *)
Definition translateText_resume (botMsgId t : string)
    (answers : nat -> Settled GenerateContentResponse) : M unit :=
  try_catch
    (response ← generate_loop (text_request t) answers maxRetries 1000;
     let translatedText := or_else (response ≫= r_text) "Could not translate." in
     setTranscriptions (resolve botMsgId translatedText))
    (fun error =>
       emit (ConsoleError "Text translation error:") ;;
       setTranscriptions (resolve botMsgId (errorMessage error))).

(** [translateText], from the point where its first call has settled to its
    end: what runs when the function is resumed. *)
Definition translateText_answered (botMsgId t : string)
    (answers : nat -> Settled GenerateContentResponse) : M unit :=
  try_catch
    (response ← generate_loop_answered (text_request t) answers;
     let translatedText := or_else (response ≫= r_text) "Could not translate." in
     setTranscriptions (resolve botMsgId translatedText))
    (fun error =>
       emit (ConsoleError "Text translation error:") ;;
       setTranscriptions (resolve botMsgId (errorMessage error))).

(** ** The component [App] *)

Definition toggleVoice : M unit :=
  rs ← gets recorderState;
  if bool_decide (rs = PROCESSING) then mret tt
  else if bool_decide (rs = RECORDING) then stopRecording
  else startRecording.

(** [handleSend]; [setInputText('')] changes the input field only. *)
Definition handleSend (inputText : string) (now1 date1 now2 date2 : Z) : M unit :=
  if truthy (Some (trim inputText)) then
    translateText inputText now1 date1 now2 date2 ;; mret tt
  else mret tt.

(** ** The event loop *)

(** What the environment supplies when an outstanding callback runs. *)
Inductive Answer :=
| UserMediaAnswer (env : CaptureSetup)
| FrameAnswer (sample : nat -> Z)
| RecorderStopAnswer (data : Blob)
| Base64Answer (base64 : Settled string) (now date : Z)
| RemoteAnswer (answers : nat -> Settled GenerateContentResponse).

Definition continue (p : Pending) (a : Answer) : option (M unit) :=
  match p, a with
  | AwaitUserMedia, UserMediaAnswer env => Some (startRecording_resume env)
  | AnimationFrame, FrameAnswer sample => Some (updateVolume sample)
  | RecorderStop r, RecorderStopAnswer data => Some (recorder_onstop r data)
  | AwaitBase64 mimeType _, Base64Answer base64 now date =>
      Some (handleRecordingStop_encoded mimeType base64 now date)
  | AwaitTranslateAudio botMsgId mimeType base64Audio, RemoteAnswer answers =>
      Some (handleRecordingStop_answered botMsgId mimeType base64Audio answers)
  | AwaitTranslateText botMsgId t, RemoteAnswer answers =>
      Some (translateText_answered botMsgId t answers)
  | _, _ => None
  end.

Inductive Event :=
| TapMic                                           (* the mic button: toggleVoice *)
| SendText (inputText : string) (now1 date1 now2 date2 : Z)
| Settle (i : nat) (a : Answer)                    (* the i-th outstanding callback runs *)
| ClearHistory
| Unmount.

Definition run (m : M unit) (w : World) : World := (m w).2.

Definition step (e : Event) (w : World) : option World :=
  match e with
  | TapMic => Some (run toggleVoice w)
  | SendText inputText now1 date1 now2 date2 =>
      Some (run (handleSend inputText now1 date1 now2 date2) w)
  | Settle i a =>
      p ← tasks w !! i;
      m ← continue p a;
      Some (run m (with_tasks (delete i (tasks w)) w))
  | ClearHistory => Some (run clearHistory w)
  | Unmount => Some (run cleanupAudio w)
  end.

Fixpoint steps (es : list Event) (w : World) : option World :=
  match es with
  | [] => Some w
  | e :: es' => w' ← step e w; steps es' w'
  end.

End Hook.

(** ** Notions the statements use *)

#[global] Instance is_TrackStop_dec (e : Effect) :
  Decision (exists s t, e = TrackStop s t).
Proof.
  destruct e; try (right; intros (? & ? & ?); discriminate).
  left. by eexists _, _.
Defined.

#[global] Instance is_GenerateContent_dec (e : Effect) :
  Decision (exists req, e = GenerateContent req).
Proof.
  destruct e; try (right; intros [? ?]; discriminate).
  left. by eexists.
Defined.

(** What a log says about the remote: the number of [generateContent]
    calls, and the [wait]s in order. *)
Definition attempts (l : list Effect) : nat :=
  length (filter (fun e => exists req, e = GenerateContent req) l).

Definition delays (l : list Effect) : list Z :=
  omap (fun e => match e with Wait ms => Some ms | _ => None end) l.

(** The log of a call that is rate-limited twice and then answered. *)
Definition backoff_trace (req : GenerateContentRequest) : list Effect :=
  [ GenerateContent req;
    ConsoleWarn "Attempt 1 failed (429). Retrying in 1000ms..."; Wait 1000;
    GenerateContent req;
    ConsoleWarn "Attempt 2 failed (429). Retrying in 2000ms..."; Wait 2000;
    GenerateContent req ].

(** The two messages of [errorMessage]. *)
Definition busy_message : string :=
  "Service busy (Quota Exceeded). Please try again in a moment.".
Definition generic_message : string := "Error during translation.".

(** What [cleanupAudio] does to a world. *)
Record released (w w' : World) : Prop := {
  rel_state : recorderState w' = recorderState w;
  rel_transcriptions : transcriptions w' = transcriptions w;
  rel_tasks : tasks w' = tasks w;
  rel_recorders : recorders w' = recorders w;
  rel_recorderRef : mediaRecorderRef w' = mediaRecorderRef w;
  rel_streamRef : streamRef w' = None;
  rel_contextRef : audioContextRef w' = None;
  rel_volume : volume w' = 0%Q;
  rel_tracks : forall h st,
    streamRef w = Some h -> streams w !! h = Some st ->
    exists st', streams w' !! h = Some st' /\ active_tracks st' = 0%nat;
  rel_context : forall c,
    audioContextRef w = Some c -> (c < length (contexts w))%nat ->
    contexts w' !! c = Some closed
}.


(** [m] never changes the observation [f] of the world. *)
Definition preserves {A B} (f : World -> B) (m : M A) : Prop :=
  forall w, f (m w).2 = f w.

(** ** Environments and worlds of the examples *)

Definition quota_error : JsError :=
  mkError (Some "got status: 429 Too Many Requests") (Some 429)
    "ApiError: got status: 429 Too Many Requests".

Definition server_error : JsError :=
  mkError (Some "got status: 500 Internal Server Error") (Some 500)
    "ApiError: got status: 500 Internal Server Error".

Definition third_time_lucky (n : nat) : Settled GenerateContentResponse :=
  match n with
  | 0%nat | 1%nat => Rejected quota_error
  | _ => Fulfilled (mkResponse (Some "Hello"))
  end.

Definition says (s : string) : nat -> Settled GenerateContentResponse :=
  fun _ => Fulfilled (mkResponse (Some s)).

Definition one_placeholder : World :=
  with_transcriptions [mkItem "5000" "Translating..." false 5000] initial.

Definition not_supported : JsError :=
  mkError (Some "Failed to construct 'MediaRecorder': the type is not supported")
    None "NotSupportedError: Failed to construct 'MediaRecorder': the type is not supported".

(** The microphone is granted, with one track; the runtime has no recorder
    for any of the three container formats. *)
Definition recorder_unsupported : CaptureSetup :=
  mkSetup (Fulfilled 1%nat) None None (fun _ => 0) false false (Some not_supported) None.

(** The microphone is granted, with one track, and capture starts. *)
Definition granted : CaptureSetup :=
  mkSetup (Fulfilled 1%nat) None None (fun _ => 0) false false None None.

(** The hook while it records, and once the recording is stopped and encoded. *)
Definition recording_world : World :=
  Eval vm_compute in
    default initial
      (steps (Some "key") [TapMic; Settle 0 (UserMediaAnswer granted)] initial).

Definition encoded_world : World :=
  Eval vm_compute in
    default initial
      (steps (Some "key")
         [TapMic; Settle 1 (RecorderStopAnswer "abc");
          Settle 1 (Base64Answer (Fulfilled "YWJj") 5000 5000)] recording_world).

(** ** Notions of the further properties *)

(** Whether the loop goes round again after the call made with
    [attempt = a]: the call was rejected with a rate-limit error and [a] is
    not the last attempt. *)
Definition retried (answers : nat -> Settled GenerateContentResponse) (a : nat) : bool :=
  match answers a with
  | Rejected e => isQuota e && (a <? maxRetries - 1)%nat
  | Fulfilled _ => false
  end.

(** The attempt that decides the loop: the first one that is not retried. *)
Definition decisive (answers : nat -> Settled GenerateContentResponse) : nat :=
  if retried answers 0 then (if retried answers 1 then 2 else 1) else 0.

(** The log of a loop that is decided at attempt [k]. *)
Definition trace_upto (req : GenerateContentRequest) (k : nat) : list Effect :=
  match k with
  | 0%nat => [GenerateContent req]
  | 1%nat =>
      [GenerateContent req;
       ConsoleWarn "Attempt 1 failed (429). Retrying in 1000ms..."; Wait 1000;
       GenerateContent req]
  | _ => backoff_trace req
  end.

(** How a settled call leaves the loop. *)
Definition outcome (a : Settled GenerateContentResponse)
  : JsError + option GenerateContentResponse :=
  match a with
  | Fulfilled r => inr (Some r)
  | Rejected e => inl e
  end.

(** The requests a log holds, in order. *)
Definition requests (l : list Effect) : list GenerateContentRequest :=
  omap (fun e => match e with GenerateContent req => Some req | _ => None end) l.

(** Everything of the world that belongs to recording: the recorder state,
    the volume, the refs and the browser objects. *)
Definition audio_side (w : World) :=
  (recorderState w, volume w, audioContextRef w, analyserRef w, streamRef w,
   mediaRecorderRef w, audioChunksRef w, streams w, contexts w, recorders w).

(** What of a transcript item never changes once it exists. *)
Definition skeleton (item : TranscriptionItem) : string * bool * Z :=
  (id item, isUser item, timestamp item).

(** The code points of the white space and the line terminators of the
    language. *)
Definition white_space : list N :=
  [9; 10; 11; 12; 13; 32; 160; 5760;
   8192; 8193; 8194; 8195; 8196; 8197; 8198; 8199; 8200; 8201; 8202;
   8232; 8233; 8239; 8287; 12288; 65279]%N.

(** The UTF-8 bytes of a code point below U+10000, and of a text given by
    its code points. *)
Definition utf8 (cp : N) : string :=
  (if cp <? 128 then String (ascii_of_N cp) EmptyString
   else if cp <? 2048 then
     String (ascii_of_N (192 + cp / 64))
       (String (ascii_of_N (128 + cp mod 64)) EmptyString)
   else
     String (ascii_of_N (224 + cp / 4096))
       (String (ascii_of_N (128 + (cp / 64) mod 64))
          (String (ascii_of_N (128 + cp mod 64)) EmptyString)))%N.

Definition utf8_text (cps : list N) : string :=
  foldr (fun cp s => utf8 cp +:+ s) EmptyString cps.

(** [p] holds of the [k] code points from [c] on. *)
Fixpoint all_from (p : N -> bool) (k : nat) (c : N) : bool :=
  match k with
  | O => true
  | S k => p c && all_from p k (N.succ c)
  end.

(** A text of white space only. *)
Definition blank (cps : list N) : Prop := Forall (fun cp => cp ∈ white_space) cps.

(** The transcript after [prev.map] has written [t] into the items with the
    id [botMsgId], item by item. *)
Definition written (botMsgId t : string) (prev : list TranscriptionItem)
  : list TranscriptionItem :=
  (fun item =>
     if String.eqb (id item) botMsgId
     then mkItem (id item) t (isUser item) (timestamp item)
     else item) <$> prev.

(** Every step of capture setup succeeds. *)
Definition setup_ok (env : CaptureSetup) : bool :=
  match userMedia env, context_error env, graph_error env,
        recorder_error env, start_error env with
  | Fulfilled _, None, None, None, None => true
  | _, _, _, _, _ => false
  end.

(** The container format [startRecording] settles on. *)
Definition preferred_mimeType (env : CaptureSetup) : string :=
  if mp4_supported env then "audio/mp4"
  else if ogg_supported env then "audio/ogg"
  else "audio/webm".

(** The volume is a byte average. *)
Definition volume_in_range (w : World) : Prop := (0 <= volume w <= 255)%Q.


(** [m] keeps the property [P] of the world. *)
Definition keeps {A} (P : World -> Prop) (m : M A) : Prop :=
  forall w, P w -> P (m w).2.

(** The message a translate call ends with, read off how the loop ended:
    the text of the response, the fallback when there is none, or one of
    the two error messages. *)
Definition final_text (fallback : string)
    (o : JsError + option GenerateContentResponse) : string :=
  match o with
  | inr (Some (mkResponse (Some s))) => if String.eqb s "" then fallback else s
  | inr _ => fallback
  | inl e =>
      if isQuota e
      then "Service busy (Quota Exceeded). Please try again in a moment."
      else "Error during translation."
  end.

(** The log of a loop that is decided at attempt [k], after its first
    call. *)
Definition trace_after (req : GenerateContentRequest) (k : nat) : list Effect :=
  match k with
  | 0%nat => []
  | 1%nat =>
      [ConsoleWarn "Attempt 1 failed (429). Retrying in 1000ms..."; Wait 1000;
       GenerateContent req]
  | _ =>
      [ConsoleWarn "Attempt 1 failed (429). Retrying in 1000ms..."; Wait 1000;
       GenerateContent req;
       ConsoleWarn "Attempt 2 failed (429). Retrying in 2000ms..."; Wait 2000;
       GenerateContent req]
  end.


(** ** src/utils/audioUtils.ts *)

Module audioUtils.

(** A [Uint8Array], as the list of its elements; each is a byte. *)
Definition uint8 (b : Z) : Prop := 0 <= b < 256.

(** A binary string is a string whose code units are below 256: a [string]. *)

(** [String.fromCharCode] and [charCodeAt], on bytes. *)
Definition fromCharCode (b : Z) : ascii := ascii_of_N (Z.to_N b).
Definition charCodeAt (c : ascii) : Z := Z.of_N (N_of_ascii c).

(** *** [btoa] and [atob]: base64 of the platform (RFC 4648, and the
    forgiving decoder of the HTML standard) *)

Definition alphabet : string :=
  "ABCDEFGHIJKLMNOPQRSTUVWXYZabcdefghijklmnopqrstuvwxyz0123456789+/".

Definition b64_char (n : Z) : ascii :=
  match String.get (Z.to_nat n) alphabet with
  | Some c => c
  | None => "="%char
  end.

Fixpoint index_from (n : Z) (c : ascii) (s : string) : option Z :=
  match s with
  | EmptyString => None
  | String c' s' => if Ascii.eqb c c' then Some n else index_from (n + 1) c s'
  end.

Definition b64_index (c : ascii) : option Z := index_from 0 c alphabet.

(** The 6-bit groups of a byte sequence, the last one filled with zero bits. *)
Fixpoint sextets (l : list Z) : list Z :=
  match l with
  | a :: b :: c :: r =>
      a / 4 :: (a mod 4) * 16 + b / 16 :: (b mod 16) * 4 + c / 64 :: c mod 64
        :: sextets r
  | [a; b] => [a / 4; (a mod 4) * 16 + b / 16; (b mod 16) * 4]
  | [a] => [a / 4; (a mod 4) * 16]
  | [] => []
  end.

Definition btoa (s : string) : string :=
  let bytes := charCodeAt <$> list_ascii_of_string s in
  string_of_list_ascii
    ((b64_char <$> sextets bytes)
     ++ replicate ((3 - length bytes mod 3) mod 3) "="%char).

(** The bytes of a sequence of 6-bit groups; the bits left over are dropped. *)
Fixpoint octets (l : list Z) : list Z :=
  match l with
  | s1 :: s2 :: s3 :: s4 :: r =>
      s1 * 4 + s2 / 16 :: (s2 mod 16) * 16 + s3 / 4 :: (s3 mod 4) * 64 + s4
        :: octets r
  | [s1; s2; s3] => [s1 * 4 + s2 / 16; (s2 mod 16) * 16 + s3 / 4]
  | [s1; s2] => [s1 * 4 + s2 / 16]
  | _ => []
  end.

Definition ascii_whitespace (c : ascii) : bool :=
  let n := nat_of_ascii c in
  (n =? 9)%nat || (n =? 10)%nat || (n =? 12)%nat || (n =? 13)%nat || (n =? 32)%nat.

(** Removes one or two [=] from the end. *)
Definition strip_padding (l : list ascii) : list ascii :=
  match reverse l with
  | c1 :: r1 =>
      if Ascii.eqb c1 "=" then
        match r1 with
        | c2 :: r2 => if Ascii.eqb c2 "=" then reverse r2 else reverse r1
        | [] => reverse r1
        end
      else l
  | [] => l
  end.

(** [atob]; [None] when it throws [InvalidCharacterError]. *)
Definition atob (s : string) : option string :=
  let data := filter (fun c => ascii_whitespace c = false) (list_ascii_of_string s) in
  let data := if (length data mod 4 =? 0)%nat then strip_padding data else data in
  if (length data mod 4 =? 1)%nat then None
  else
    groups ← mapM b64_index data;
    Some (string_of_list_ascii (fromCharCode <$> octets groups)).

(** What the decoder needs of the character of a 6-bit group. *)
Definition good_char (n : Z) : bool :=
  bool_decide (b64_index (b64_char n) = Some n)
  && negb (Ascii.eqb (b64_char n) "=")
  && negb (ascii_whitespace (b64_char n)).

(** *** The functions of the file *)

(** Base64 encoder for raw bytes *)
Definition encode (bytes : list Z) : string :=
  btoa (string_of_list_ascii (fromCharCode <$> bytes)).

(** Base64 decoder to raw bytes; [None] when [atob] throws. *)
Definition decode (base64 : string) : option (list Z) :=
  binaryString ← atob base64;
  Some (charCodeAt <$> list_ascii_of_string binaryString).

(** *** [blobToBase64] *)

(** [String.prototype.split] with a separator of one character. *)
Fixpoint split (sep : ascii) (s : string) : list string :=
  match s with
  | EmptyString => [EmptyString]
  | String c s' =>
      if Ascii.eqb c sep then EmptyString :: split sep s'
      else match split sep s' with
           | piece :: pieces => String c piece :: pieces
           | [] => [String c EmptyString]
           end
  end.

(** [reader.result] at [loadend]: a string after [readAsDataURL] has
    succeeded, [null] after it has failed. *)
Inductive ReaderResult :=
| StringResult (s : string)
| NullResult.

(** The events of the reader that have a handler. *)
Inductive ReaderEvent :=
| error (event : JsError)
| loadend (result : ReaderResult).

(** What the handler of an event does to the promise; the resolved value is
    [None] when [split(',')[1]] is [undefined]. *)
Definition handler (e : ReaderEvent) : Settled (option string) :=
  match e with
  | loadend (StringResult s) =>
      (* Remove data:MIME;base64, prefix *)
      let base64String := split "," s !! 1%nat in
      Fulfilled base64String
  | loadend NullResult =>
      Rejected (mkError (Some "Failed to convert blob to base64") None
                  "Error: Failed to convert blob to base64")
  | error event => Rejected event
  end.

(** The promise [blobToBase64] returns, given the events the reader fires:
    the first handler that runs settles it, later calls of [resolve] and
    [reject] do nothing; it stays pending when no event comes. *)
Definition blobToBase64 (events : list ReaderEvent) : option (Settled (option string)) :=
  head (handler <$> events).

(** The data URL that [readAsDataURL] produces for a blob of the given type
    and bytes. *)
Definition readAsDataURL (type : string) (bytes : list Z) : string :=
  "data:" ++ (if String.eqb type "" then "application/octet-stream" else type)
  ++ ";base64," ++ encode bytes.

(** A string that does not hold the character [c]. *)
Definition without (c : ascii) (s : string) : Prop :=
  Forall (fun c' => Ascii.eqb c' c = false) (list_ascii_of_string s).

(** *** PCM samples: [createPcmBlob] and [decodeAudioData] *)

(** A number: a rational when it is finite (every finite float is one), or
    one of [NaN], [Infinity] and [-Infinity]. *)
Inductive Number :=
| Finite (q : Q)
| NotFinite.

(** [x * k] and [x / k] for a finite [k] that is not zero: exact on the
    values met here, a float32 times 32768 and an int16 over 32768. *)
Definition times (x : Number) (k : Q) : Number :=
  match x with
  | Finite q => Finite (q * k)
  | NotFinite => NotFinite
  end.

(** The integer part, rounding towards zero. *)
Definition trunc (q : Q) : Z := Z.quot (Qnum q) (Zpos (Qden q)).

(** The conversions [ToInt16] and [ToUint32] of the language. *)
Definition wrap16 (n : Z) : Z := (n + 32768) mod 65536 - 32768.

Definition ToInt16 (x : Number) : Z :=
  match x with
  | Finite q => wrap16 (trunc q)
  | NotFinite => 0
  end.

Definition ToUint32 (x : Number) : Z :=
  match x with
  | Finite q => trunc q mod 2 ^ 32
  | NotFinite => 0
  end.

(** The two bytes of an element of an [Int16Array] in its buffer, and the
    [Int16Array] over a buffer of bytes, in the byte order of the platform
    (little-endian); [None] is the [RangeError] for a buffer of odd length. *)
Definition int16_bytes (x : Z) : list Z :=
  let u := x mod 65536 in [u mod 256; u / 256].

Fixpoint Int16Array (buffer : list Z) : option (list Z) :=
  match buffer with
  | [] => Some []
  | lo :: hi :: rest => l ← Int16Array rest; Some (wrap16 (lo + 256 * hi) :: l)
  | [_] => None
  end.

Record GenAIBlob := mkBlob { blob_data : string; blob_mimeType : string }.

(** Convert Float32Array audio data to Int16Array and wrap it in the format
    expected by the Live API. *)
Definition createPcmBlob (data : list Number) : GenAIBlob :=
  (* Scale float (-1.0 to 1.0) to int16 (-32768 to 32767) *)
  let int16 := (fun sample => ToInt16 (times sample 32768)) <$> data in
  {| blob_data := encode (int16 ≫= int16_bytes);
     blob_mimeType := "audio/pcm;rate=16000" |}.

Inductive DOMException := RangeError | NotSupportedError | IndexSizeError.

(** An audio context, through the limits of its [createBuffer]. *)
Record AudioContext := mkContext {
  maxChannels : Z;
  minSampleRate : Q;
  maxSampleRate : Q
}.

Record AudioBuffer := mkBuffer {
  sampleRate : Q;
  channels : list (list Number)
}.

(** [ctx.createBuffer], on arguments already converted to [unsigned long]:
    a buffer of silence, or [NotSupportedError]. *)
Definition createBuffer (ctx : AudioContext) (numberOfChannels frames : Z) (rate : Q)
    : DOMException + AudioBuffer :=
  if (1 <=? numberOfChannels) && (numberOfChannels <=? maxChannels ctx)
     && (1 <=? frames)
     && Qle_bool (minSampleRate ctx) rate && Qle_bool rate (maxSampleRate ctx)
  then inr (mkBuffer rate
              (replicate (Z.to_nat numberOfChannels)
                 (replicate (Z.to_nat frames) (Finite 0))))
  else inl NotSupportedError.

(** [for (let i = 0; i < n; i++) body], with and without exceptions. *)
Fixpoint for_loop {S : Type} (n : nat) (body : nat -> S -> S) (s : S) : S :=
  match n with
  | O => s
  | S n' => body n' (for_loop n' body s)
  end.

Fixpoint for_loop_throwing {S E : Type} (n : nat) (body : nat -> S -> E + S) (s : S)
    : E + S :=
  match n with
  | O => inr s
  | S n' =>
      match for_loop_throwing n' body s with
      | inl e => inl e
      | inr s' => body n' s'
      end
  end.

(** How often [for (let i = 0; i < frameCount; i++)] runs its body. *)
Definition iterations (frameCount : Number) : nat :=
  match frameCount with
  | Finite q => Z.to_nat (Qceiling q)
  | NotFinite => 0
  end.

(** [dataInt16[i] / 32768.0]; [undefined / 32768.0] is [NaN]. *)
Definition sample_at (dataInt16 : list Z) (i : nat) : Number :=
  match dataInt16 !! i with
  | Some x => Finite (inject_Z x / 32768)
  | None => NotFinite
  end.

(** Convert raw Int16 PCM bytes to an AudioBuffer for playback.  A write
    into a [Float32Array] beyond its end does nothing, as the insertion
    into a list does. *)
Definition decodeAudioData (data : list Z) (ctx : AudioContext) (rate : Q)
    (numChannels : Z) : DOMException + AudioBuffer :=
  match Int16Array data with
  | None => inl RangeError
  | Some dataInt16 =>
      let frameCount :=
        if numChannels =? 0 then NotFinite
        else Finite (inject_Z (Z.of_nat (length dataInt16)) / inject_Z numChannels) in
      match createBuffer ctx (ToUint32 (Finite (inject_Z numChannels)))
              (ToUint32 frameCount) rate with
      | inl e => inl e
      | inr buffer =>
          for_loop_throwing (Z.to_nat numChannels) (fun channel buffer =>
            match channels buffer !! channel with
            | None => inl IndexSizeError
            | Some channelData =>
                let channelData :=
                  for_loop (iterations frameCount) (fun i channelData =>
                    (* Convert int16 back to float for Web Audio API *)
                    <[i := sample_at dataInt16 (i * Z.to_nat numChannels + channel)]>
                      channelData) channelData in
                inr (mkBuffer (sampleRate buffer)
                       (<[channel := channelData]> (channels buffer)))
            end) buffer
      end
  end.

(** The bodies of the two loops of [decodeAudioData], by name. *)
Definition fill (dataInt16 : list Z) (numChannels count : nat)
    (channel : nat) (channelData : list Number) : list Number :=
  for_loop count
    (fun i channelData =>
       <[i := sample_at dataInt16 (i * numChannels + channel)]> channelData)
    channelData.

Definition channel_body (dataInt16 : list Z) (numChannels count : nat)
    (channel : nat) (buffer : AudioBuffer) : DOMException + AudioBuffer :=
  match channels buffer !! channel with
  | None => inl IndexSizeError
  | Some channelData =>
      inr (mkBuffer (sampleRate buffer)
             (<[channel := fill dataInt16 numChannels count channel channelData]>
                (channels buffer)))
  end.

(** A sample as [createPcmBlob] and [decodeAudioData] give it back. *)
Definition quantized (sample : Number) : Number :=
  Finite (inject_Z (ToInt16 (times sample 32768)) / 32768).

End audioUtils.

(** ** The component [App]: its own state and its action button *)

Module App.

(** The state of the component: [inputText], and the state of the hook. *)
Record State := mkState { inputText : string; hook : World }.

Definition isRecording (a : State) : bool :=
  bool_decide (recorderState (hook a) = RECORDING).
Definition isProcessing (a : State) : bool :=
  bool_decide (recorderState (hook a) = PROCESSING).

(** Action Button: Toggle Mic or Send Text.  The mic button is rendered
    with [disabled={isProcessing}]. *)
Inductive Button :=
| SendButton
| MicButton (disabled : bool).

Definition action_button (a : State) : Button :=
  if truthy (Some (trim (inputText a))) && negb (isRecording a) && negb (isProcessing a)
  then SendButton
  else MicButton (isProcessing a).

(** [handleSend], with its [setInputText('')]. *)
Definition handleSend (key : option string) (now1 date1 now2 date2 : Z) (a : State)
    : State :=
  mkState (if truthy (Some (trim (inputText a))) then "" else inputText a)
    (run (handleSend key (inputText a) now1 date1 now2 date2) (hook a)).

(** A click on the action button runs the [onClick] of the button that is
    rendered; a disabled button dispatches no click. *)
Definition click (key : option string) (now1 date1 now2 date2 : Z) (a : State)
    : State :=
  match action_button a with
  | SendButton => handleSend key now1 date1 now2 date2 a
  | MicButton true => a
  | MicButton false => mkState (inputText a) (run (toggleVoice key) (hook a))
  end.

End App.

(** * Properties *)

(** ** Worlds *)

Lemma with_log_same (w : World) : with_log (log w) w = w.
Proof. by destruct w. Qed.

Lemma with_log_nil (w : World) : with_log (log w ++ []) w = w.
Proof. rewrite app_nil_r. apply with_log_same. Qed.

Lemma with_log_twice (l1 l2 : list Effect) (w : World) :
  with_log l2 (with_log l1 w) = with_log l2 w.
Proof. reflexivity. Qed.

(** ** The transcript update [resolve] *)

Lemma resolve_length (b t : string) (prev : list TranscriptionItem) :
  length (resolve b t prev) = length prev.
Proof. unfold resolve. by rewrite length_fmap. Qed.

Lemma resolve_hit (b t : string) (prev : list TranscriptionItem) i item :
  prev !! i = Some item -> id item = b ->
  resolve b t prev !! i = Some (set_text t item).
Proof.
  intros Hi Hb. unfold resolve. rewrite list_lookup_fmap, Hi. simpl.
  by rewrite bool_decide_eq_true_2.
Qed.

Lemma resolve_miss (b t : string) (prev : list TranscriptionItem) i item :
  prev !! i = Some item -> id item <> b ->
  resolve b t prev !! i = Some item.
Proof.
  intros Hi Hb. unfold resolve. rewrite list_lookup_fmap, Hi. simpl.
  by rewrite bool_decide_eq_false_2.
Qed.

Lemma resolve_isUser (b t : string) (prev : list TranscriptionItem) :
  isUser <$> resolve b t prev = isUser <$> prev.
Proof.
  unfold resolve. rewrite <- list_fmap_compose. apply list_fmap_ext.
  intros i item _. simpl. by case_bool_decide.
Qed.

Lemma resolve_ids (b t : string) (prev : list TranscriptionItem) :
  id <$> resolve b t prev = id <$> prev.
Proof.
  unfold resolve. rewrite <- list_fmap_compose. apply list_fmap_ext.
  intros i item _. simpl. by case_bool_decide.
Qed.

(** Two resolutions under different ids commute: the order in which the
    responses arrive does not matter then. *)
Lemma resolve_comm (a b ta tb : string) (prev : list TranscriptionItem) :
  a <> b ->
  resolve a ta (resolve b tb prev) = resolve b tb (resolve a ta prev).
Proof.
  intros Hab. unfold resolve. rewrite <- !list_fmap_compose.
  apply list_fmap_ext. intros i item _. simpl.
  repeat (case_bool_decide; simpl in * ); congruence.
Qed.

(** ** The retry loop *)

Lemma pretty_nat_1 : pretty 1%nat = "1".
Proof. by vm_compute. Qed.
Lemma pretty_nat_2 : pretty 2%nat = "2".
Proof. by vm_compute. Qed.
Lemma pretty_Z_1000 : pretty 1000 = "1000".
Proof. by vm_compute. Qed.
Lemma pretty_Z_2000 : pretty 2000 = "2000".
Proof. by vm_compute. Qed.

(** The loop touches nothing but the log. *)
Lemma generate_loop_frame req answers n d w :
  exists l, (generate_loop req answers n d w).2 = with_log (log w ++ l) w.
Proof.
  revert d w. induction n as [|n IH]; intros d w.
  - exists []. simpl. by rewrite with_log_nil.
  - simpl. unfold mbind, M_bind, emit, modify. simpl.
    destruct (answers _) as [r|e]; simpl.
    + by exists [GenerateContent req].
    + destruct (isQuota e && _); simpl.
      * edestruct (IH (d * 2)) as [l Hl]. rewrite Hl. simpl.
        eexists. rewrite <- !app_assoc. reflexivity.
      * by exists [GenerateContent req].
Qed.

(** The loop never leaves [response] undefined: it is left by [break] or by
    [throw]. *)
Lemma generate_loop_result req answers d w :
  (generate_loop req answers maxRetries d w).1 <> inr None.
Proof.
  unfold maxRetries. simpl. unfold mbind, M_bind, emit, modify. simpl.
  destruct (answers 0%nat) as [r|e]; simpl; [done|].
  destruct (isQuota e); simpl; [|done].
  destruct (answers 1%nat) as [r|e']; simpl; [done|].
  destruct (isQuota e'); simpl; [|done].
  destruct (answers 2%nat) as [r|e'']; simpl; [done|].
  rewrite andb_false_r. done.
Qed.



(** The loop is its first call, followed by what runs once that call has
    settled. *)
Lemma generate_loop_call req answers (w : World) :
  generate_loop req answers maxRetries 1000 w
  = generate_loop_answered req answers (with_log (log w ++ [GenerateContent req]) w).
Proof. reflexivity. Qed.

(** So a translate call taken as one piece is its first call, made before
    the function stops, followed by what runs when it is resumed. *)
Lemma translateText_resume_call b t answers (w : World) :
  translateText_resume b t answers w
  = translateText_answered b t answers
      (with_log (log w ++ [GenerateContent (text_request t)]) w).
Proof. reflexivity. Qed.

Lemma translateAudio_resume_call b m a answers (w : World) :
  translateAudio_resume b m a answers w
  = translateAudio_answered b m a answers
      (with_log (log w ++ [GenerateContent (audio_request a m)]) w).
Proof. reflexivity. Qed.

Lemma handleRecordingStop_settled_call b m a answers (w : World) :
  handleRecordingStop_settled b m a answers w
  = handleRecordingStop_answered b m a answers
      (with_log (log w ++ [GenerateContent (audio_request a m)]) w).
Proof. reflexivity. Qed.

(** What runs once the first call has settled, in closed form. *)
Lemma generate_loop_answered_decided req answers (w : World) :
  generate_loop_answered req answers w
  = (outcome (answers (decisive answers)),
     with_log (log w ++ trace_after req (decisive answers)) w).
Proof.
  unfold generate_loop_answered, decisive, retried, maxRetries. simpl.
  unfold mbind, M_bind, emit, modify. simpl.
  destruct (answers 0%nat) as [r0|e0] eqn:H0; simpl.
  { rewrite H0. unfold mret, M_ret. by rewrite with_log_nil. }
  destruct (isQuota e0) eqn:Hq0; simpl.
  2:{ rewrite H0. unfold throw. by rewrite with_log_nil. }
  destruct (answers 1%nat) as [r1|e1] eqn:H1; simpl.
  { rewrite H1, pretty_nat_1, pretty_Z_1000. unfold mret, M_ret. simpl.
    rewrite !with_log_twice, <- !app_assoc. reflexivity. }
  destruct (isQuota e1) eqn:Hq1; simpl.
  2:{ rewrite H1, pretty_nat_1, pretty_Z_1000. unfold throw. simpl.
      rewrite !with_log_twice, <- !app_assoc. reflexivity. }
  change (1000 * 2) with 2000.
  rewrite pretty_nat_1, pretty_nat_2, pretty_Z_1000, pretty_Z_2000.
  destruct (answers 2%nat) as [r2|e2] eqn:H2; simpl.
  - unfold mret, M_ret. rewrite !with_log_twice, <- !app_assoc. reflexivity.
  - rewrite andb_false_r. unfold throw.
    rewrite !with_log_twice, <- !app_assoc. reflexivity.
Qed.

(** ** The two halves of [translateText] and [translateAudio] after the loop *)

Lemma translateText_resume_ok b t answers w res w1 :
  generate_loop (text_request t) answers maxRetries 1000 w = (inr res, w1) ->
  translateText_resume b t answers w
  = (inr tt,
     with_transcriptions
       (resolve b (or_else (res ≫= r_text) "Could not translate.") (transcriptions w1)) w1).
Proof.
  intros H. unfold translateText_resume, try_catch, mbind, M_bind.
  by rewrite H.
Qed.

Lemma translateText_resume_err b t answers w e w1 :
  generate_loop (text_request t) answers maxRetries 1000 w = (inl e, w1) ->
  translateText_resume b t answers w
  = (inr tt,
     with_transcriptions (resolve b (errorMessage e) (transcriptions w1))
       (with_log (log w1 ++ [ConsoleError "Text translation error:"]) w1)).
Proof.
  intros H. unfold translateText_resume, try_catch, mbind, M_bind.
  by rewrite H.
Qed.

Lemma translateAudio_resume_ok b mimeType base64Audio answers w res w1 :
  generate_loop (audio_request base64Audio mimeType) answers maxRetries 1000 w
    = (inr res, w1) ->
  translateAudio_resume b mimeType base64Audio answers w
  = (inr tt,
     with_transcriptions
       (resolve b (or_else (res ≫= r_text) "Could not translate audio.") (transcriptions w1)) w1).
Proof.
  intros H. unfold translateAudio_resume, try_catch, mbind, M_bind.
  by rewrite H.
Qed.

Lemma translateAudio_resume_err b mimeType base64Audio answers w e w1 :
  generate_loop (audio_request base64Audio mimeType) answers maxRetries 1000 w
    = (inl e, w1) ->
  translateAudio_resume b mimeType base64Audio answers w
  = (inr tt,
     with_transcriptions (resolve b (errorMessage e) (transcriptions w1))
       (with_log (log w1 ++ [ConsoleError "Translation error:"]) w1)).
Proof.
  intros H. unfold translateAudio_resume, try_catch, mbind, M_bind.
  by rewrite H.
Qed.

(** The loop leaves the transcript alone. *)
Lemma generate_loop_transcriptions req answers n d w :
  transcriptions (generate_loop req answers n d w).2 = transcriptions w.
Proof. destruct (generate_loop_frame req answers n d w) as [l ->]. done. Qed.

(** ** Retry policy *)





(** ** Fallback text and error messages *)

Lemma or_else_falsy (o : option string) (d : string) :
  truthy o = false -> or_else o d = d.
Proof.
  destruct o as [s|]; simpl; [|done].
  by destruct (String.eqb s "").
Qed.

(** C4, as the code has it.  When the remote call succeeds and the response
    carries no text (none, or the empty string), the placeholder of a text
    submission is resolved to ["Could not translate."] and the placeholder
    of an audio submission to ["Could not translate audio."]. *)
Theorem empty_response_falls_back
    (answers : nat -> Settled GenerateContentResponse)
    (r : GenerateContentResponse) (w : World) (botMsgId : string)
    (i : nat) (item : TranscriptionItem) :
  truthy (r_text r) = false ->
  transcriptions w !! i = Some item -> id item = botMsgId ->
  (forall t,
      (generate_loop (text_request t) answers maxRetries 1000 w).1 = inr (Some r) ->
      transcriptions (translateText_resume botMsgId t answers w).2 !! i
      = Some (mkItem (id item) "Could not translate." (isUser item) (timestamp item)))
  /\ (forall mimeType base64Audio,
        (generate_loop (audio_request base64Audio mimeType) answers maxRetries 1000 w).1
          = inr (Some r) ->
        transcriptions (translateAudio_resume botMsgId mimeType base64Audio answers w).2 !! i
        = Some (mkItem (id item) "Could not translate audio."
                  (isUser item) (timestamp item))).
Proof.
  intros Hr Hi Hid. split.
  - intros t Hloop.
    pose proof (generate_loop_transcriptions (text_request t) answers maxRetries 1000 w) as Htr.
    destruct (generate_loop _ _ _ _ w) as [res w1] eqn:E. simpl in *. subst res.
    rewrite (translateText_resume_ok _ _ _ _ _ _ E). simpl.
    rewrite Htr, or_else_falsy by done.
    exact (resolve_hit _ _ _ _ _ Hi Hid).
  - intros m a Hloop.
    pose proof (generate_loop_transcriptions (audio_request a m) answers maxRetries 1000 w) as Htr.
    destruct (generate_loop _ _ _ _ w) as [res w1] eqn:E. simpl in *. subst res.
    rewrite (translateAudio_resume_ok _ _ _ _ _ _ _ E). simpl.
    rewrite Htr, or_else_falsy by done.
    exact (resolve_hit _ _ _ _ _ Hi Hid).
Qed.

Lemma empty_response_falls_back_witness :
  transcriptions
    (translateText_resume "5000" "nomoskar" (fun _ => Fulfilled (mkResponse None))
       one_placeholder).2 !! 0%nat
  = Some (mkItem "5000" "Could not translate." false 5000).
Proof.
  apply (proj1 (empty_response_falls_back (fun _ => Fulfilled (mkResponse None))
                  (mkResponse None) one_placeholder "5000" 0
                  (mkItem "5000" "Translating..." false 5000)
                  eq_refl eq_refl eq_refl)
           "nomoskar" eq_refl).
Defined.

(** C4, as stated, at an audio submission.  A recording is made and
    stopped, the audio is encoded, and the remote call succeeds with a
    response without text: the placeholder reads
    ["Could not translate audio."], not ["Could not translate."]. *)
Lemma audio_fallback_is_another_literal :
  exists w,
    steps (Some "key")
      [TapMic; Settle 0 (UserMediaAnswer granted); TapMic;
       Settle 1 (RecorderStopAnswer "abc");
       Settle 1 (Base64Answer (Fulfilled "YWJj") 5000 5000);
       Settle 1 (RemoteAnswer (fun _ => Fulfilled (mkResponse None)))] initial
    = Some w
    /\ (fun item => (id item, text item, isUser item)) <$> transcriptions w
       = [("5000", "Could not translate audio.", false)]
    /\ "Could not translate audio." <> "Could not translate.".
Proof.
  eexists. split; [by vm_compute|]. split; [by vm_compute|]. discriminate.
Qed.

(** Every translate call runs to its end without throwing: whatever the
    loop throws is caught by the [catch] block of the call. *)
Lemma translateText_resume_returns b t answers w :
  (translateText_resume b t answers w).1 = inr tt.
Proof.
  unfold translateText_resume, try_catch, mbind, M_bind.
  by destruct (generate_loop _ _ _ _ w) as [[e|r] w1].
Qed.

Lemma translateAudio_resume_returns b m a answers w :
  (translateAudio_resume b m a answers w).1 = inr tt.
Proof.
  unfold translateAudio_resume, try_catch, mbind, M_bind.
  by destruct (generate_loop _ _ _ _ w) as [[e|r] w1].
Qed.

(** C8. A translate call, audio or text, that fails in the end resolves its
    placeholder to a message that depends only on the kind of the failure:
    the "service busy ... try again" literal for a rate-limit failure, the
    generic "error during translation" literal for any other; and no
    translate call throws, whatever the remote answers. *)
Theorem failure_is_rendered_in_placeholder
    (answers : nat -> Settled GenerateContentResponse)
    (e : JsError) (w : World) (botMsgId : string)
    (i : nat) (item : TranscriptionItem) :
  transcriptions w !! i = Some item -> id item = botMsgId ->
  (forall t,
      (generate_loop (text_request t) answers maxRetries 1000 w).1 = inl e ->
      transcriptions (translateText_resume botMsgId t answers w).2 !! i
      = Some (mkItem (id item)
                (if isQuota e
                 then "Service busy (Quota Exceeded). Please try again in a moment."
                 else "Error during translation.")
                (isUser item) (timestamp item)))
  /\ (forall mimeType base64Audio,
        (generate_loop (audio_request base64Audio mimeType) answers maxRetries 1000 w).1
          = inl e ->
        transcriptions (translateAudio_resume botMsgId mimeType base64Audio answers w).2 !! i
        = Some (mkItem (id item)
                (if isQuota e
                 then "Service busy (Quota Exceeded). Please try again in a moment."
                 else "Error during translation.")
                  (isUser item) (timestamp item)))
  /\ (forall t, (translateText_resume botMsgId t answers w).1 = inr tt)
  /\ (forall mimeType base64Audio,
        (translateAudio_resume botMsgId mimeType base64Audio answers w).1 = inr tt)
  /\ includes busy_message "Service busy" = true
  /\ includes busy_message "try again" = true.
Proof.
  intros Hi Hid. repeat split.
  - intros t Hloop.
    pose proof (generate_loop_transcriptions (text_request t) answers maxRetries 1000 w) as Htr.
    destruct (generate_loop _ _ _ _ w) as [res w1] eqn:E. simpl in *. subst res.
    rewrite (translateText_resume_err _ _ _ _ _ _ E). simpl.
    rewrite Htr. exact (resolve_hit _ _ _ _ _ Hi Hid).
  - intros m a Hloop.
    pose proof (generate_loop_transcriptions (audio_request a m) answers maxRetries 1000 w) as Htr.
    destruct (generate_loop _ _ _ _ w) as [res w1] eqn:E. simpl in *. subst res.
    rewrite (translateAudio_resume_err _ _ _ _ _ _ _ E). simpl.
    rewrite Htr. exact (resolve_hit _ _ _ _ _ Hi Hid).
  - intros t. apply translateText_resume_returns.
  - intros m a. apply translateAudio_resume_returns.
Qed.

Lemma failure_is_rendered_in_placeholder_witness :
  transcriptions
    (translateText_resume "5000" "nomoskar" (fun _ => Rejected quota_error)
       one_placeholder).2 !! 0%nat
  = Some (mkItem "5000" "Service busy (Quota Exceeded). Please try again in a moment."
            false 5000).
Proof.
  apply (proj1 (failure_is_rendered_in_placeholder (fun _ => Rejected quota_error)
                  quota_error one_placeholder "5000" 0
                  (mkItem "5000" "Translating..." false 5000)
                  eq_refl eq_refl)
           "nomoskar" eq_refl).
Defined.

(** ** Release of the microphone *)

Lemma active_tracks_ended (st : MediaStream) :
  active_tracks ((fun _ => ended) <$> st) = 0%nat.
Proof.
  unfold active_tracks. induction st as [|t st IH]; [done|].
  rewrite fmap_cons, filter_cons_False by done. exact IH.
Qed.

Lemma cleanupAudio_released (w : World) :
  exists w', cleanupAudio w = (inr tt, w') /\ released w w'.
Proof.
  unfold cleanupAudio, stop_tracks, close_context, setVolume, emit, modify, gets,
    mbind, M_bind, mret, M_ret.
  destruct (streamRef w) as [h|] eqn:Hs; simpl.
  - destruct (streams w !! h) as [st|] eqn:Hst; simpl;
      destruct (audioContextRef w) as [c|] eqn:Hc; simpl;
      (eexists; split; [reflexivity|]);
      split; simpl; try done; rewrite ?Hs, ?Hst, ?Hc; try done.
    all: try (intros c' [= <-] Hlt; by apply list_lookup_insert_eq).
    all: intros h' st0 [= <-] Hst0; rewrite Hst in Hst0; try done.
    all: injection Hst0 as <-.
    all: exists ((fun _ => ended) <$> st); split; [|apply active_tracks_ended].
    all: apply list_lookup_insert_eq; by eapply lookup_lt_Some.
  - destruct (audioContextRef w) as [c|] eqn:Hc; simpl;
      (eexists; split; [reflexivity|]);
      split; simpl; try done; rewrite ?Hs, ?Hc; try done.
    intros c' [= <-] Hlt. by apply list_lookup_insert_eq.
Qed.

(** The [finally] block of [handleRecordingStop]: it releases, and then
    leaves [ERROR] alone and turns any other state into [IDLE]. *)
Lemma handleRecordingStop_finally_spec (w : World) :
  exists w1 w',
    cleanupAudio w = (inr tt, w1) /\ released w w1 /\
    handleRecordingStop_finally w = (inr tt, w') /\
    w' = with_recorderState
           (if bool_decide (recorderState w = ERROR) then ERROR else IDLE) w1.
Proof.
  destruct (cleanupAudio_released w) as (w1 & Hc & Hrel).
  exists w1. eexists. split; [done|]. split; [done|].
  unfold handleRecordingStop_finally, mbind, M_bind. rewrite Hc.
  unfold setRecorderState_fn, modify. rewrite (rel_state _ _ Hrel).
  split; [reflexivity|]. by case_bool_decide as E; [rewrite E|].
Qed.

(** After its first [await], a translate call changes the transcript by one
    [resolve] under its own id, and the log; nothing else. *)
Lemma translateText_resume_frame b t answers w :
  exists msg l,
    translateText_resume b t answers w
    = (inr tt,
       with_transcriptions (resolve b msg (transcriptions w)) (with_log (log w ++ l) w)).
Proof.
  destruct (generate_loop_frame (text_request t) answers maxRetries 1000 w) as [l Hl].
  destruct (generate_loop _ _ _ _ w) as [[e|res] w1] eqn:E; simpl in Hl; subst w1.
  - rewrite (translateText_resume_err _ _ _ _ _ _ E).
    eexists _, (l ++ [_]). simpl. by rewrite <- app_assoc.
  - rewrite (translateText_resume_ok _ _ _ _ _ _ E). by eexists _, l.
Qed.

Lemma translateAudio_resume_frame b m a answers w :
  exists msg l,
    translateAudio_resume b m a answers w
    = (inr tt,
       with_transcriptions (resolve b msg (transcriptions w)) (with_log (log w ++ l) w)).
Proof.
  destruct (generate_loop_frame (audio_request a m) answers maxRetries 1000 w) as [l Hl].
  destruct (generate_loop _ _ _ _ w) as [[e|res] w1] eqn:E; simpl in Hl; subst w1.
  - rewrite (translateAudio_resume_err _ _ _ _ _ _ _ E).
    eexists _, (l ++ [_]). simpl. by rewrite <- app_assoc.
  - rewrite (translateAudio_resume_ok _ _ _ _ _ _ _ E). by eexists _, l.
Qed.

(** [handleRecordingStop] once the translate step has settled: the
    placeholder is resolved, the audio is released, the state is reset. *)
Lemma handleRecordingStop_settled_spec b m a answers w :
  exists msg l w1,
    let w0 := with_transcriptions (resolve b msg (transcriptions w))
                (with_log (log w ++ l) w) in
    translateAudio_resume b m a answers w = (inr tt, w0) /\
    cleanupAudio w0 = (inr tt, w1) /\ released w0 w1 /\
    handleRecordingStop_settled b m a answers w
    = (inr tt,
       with_recorderState
         (if bool_decide (recorderState w = ERROR) then ERROR else IDLE) w1).
Proof.
  destruct (translateAudio_resume_frame b m a answers w) as (msg & l & Hres).
  exists msg, l.
  destruct (handleRecordingStop_finally_spec
              (with_transcriptions (resolve b msg (transcriptions w))
                 (with_log (log w ++ l) w))) as (w1 & w' & Hc & Hrel & Hf & ->).
  exists w1. simpl. split; [done|]. split; [done|]. split; [done|].
  unfold handleRecordingStop_settled, resume_try, mbind, M_bind.
  rewrite Hres. simpl. exact Hf.
Qed.

(** The same, for what runs when the functions are resumed: the message is
    the one of the call taken as one piece, and the log is its log without
    the first call, which was made before. *)
Lemma translateText_answered_frame b t answers w :
  exists msg l,
    translateText_answered b t answers w
    = (inr tt,
       with_transcriptions (resolve b msg (transcriptions w)) (with_log (log w ++ l) w))
    /\ translateText_resume b t answers w
       = (inr tt,
          with_transcriptions (resolve b msg (transcriptions w))
            (with_log (log w ++ GenerateContent (text_request t) :: l) w)).
Proof.
  unfold translateText_resume, translateText_answered, try_catch, mbind, M_bind.
  rewrite generate_loop_call, !generate_loop_answered_decided.
  destruct (outcome _) as [e|res]; simpl.
  - eexists _, (_ ++ [_]). split.
    + unfold emit, modify, setTranscriptions. simpl.
      rewrite <- app_assoc. reflexivity.
    + unfold emit, modify, setTranscriptions. simpl.
      rewrite <- !app_assoc. reflexivity.
  - eexists _, _. split; [reflexivity|].
    unfold setTranscriptions, modify. simpl. by rewrite <- app_assoc.
Qed.

Lemma translateAudio_answered_frame b m a answers w :
  exists msg l,
    translateAudio_answered b m a answers w
    = (inr tt,
       with_transcriptions (resolve b msg (transcriptions w)) (with_log (log w ++ l) w))
    /\ translateAudio_resume b m a answers w
       = (inr tt,
          with_transcriptions (resolve b msg (transcriptions w))
            (with_log (log w ++ GenerateContent (audio_request a m) :: l) w)).
Proof.
  unfold translateAudio_resume, translateAudio_answered, try_catch, mbind, M_bind.
  rewrite generate_loop_call, !generate_loop_answered_decided.
  destruct (outcome _) as [e|res]; simpl.
  - eexists _, (_ ++ [_]). split.
    + unfold emit, modify, setTranscriptions. simpl.
      rewrite <- app_assoc. reflexivity.
    + unfold emit, modify, setTranscriptions. simpl.
      rewrite <- !app_assoc. reflexivity.
  - eexists _, _. split; [reflexivity|].
    unfold setTranscriptions, modify. simpl. by rewrite <- app_assoc.
Qed.

Lemma handleRecordingStop_answered_spec b m a answers w :
  exists msg l w1,
    let w0 := with_transcriptions (resolve b msg (transcriptions w))
                (with_log (log w ++ l) w) in
    translateAudio_answered b m a answers w = (inr tt, w0) /\
    cleanupAudio w0 = (inr tt, w1) /\ released w0 w1 /\
    handleRecordingStop_answered b m a answers w
    = (inr tt,
       with_recorderState
         (if bool_decide (recorderState w = ERROR) then ERROR else IDLE) w1).
Proof.
  destruct (translateAudio_answered_frame b m a answers w) as (msg & l & Hres & _).
  exists msg, l.
  destruct (handleRecordingStop_finally_spec
              (with_transcriptions (resolve b msg (transcriptions w))
                 (with_log (log w ++ l) w))) as (w1 & w' & Hc & Hrel & Hf & ->).
  exists w1. simpl. split; [done|]. split; [done|]. split; [done|].
  unfold handleRecordingStop_answered, resume_try, mbind, M_bind.
  rewrite Hres. simpl. exact Hf.
Qed.

(** [handleRecordingStop] once the audio is encoded, or could not be. *)
Lemma handleRecordingStop_encoded_spec API_KEY m base64 now date w :
  let r := handleRecordingStop_encoded API_KEY m base64 now date w in
  (exists b,
      base64 = Fulfilled b /\ truthy API_KEY = true /\
      r = (inr tt,
           with_tasks (tasks w ++ [AwaitTranslateAudio (pretty now) m b])
             (with_log (log w ++ [GenerateContent (audio_request b m)])
                (with_transcriptions
                   (transcriptions w ++ [mkItem (pretty now) "Translating..." false date])
                   w))))
  \/ (exists w0 w1,
        ((exists e, base64 = Rejected e /\
                    w0 = with_recorderState ERROR
                           (with_log (log w ++ [ConsoleError "Error processing audio:"]) w))
         \/ ((exists b, base64 = Fulfilled b) /\ truthy API_KEY = false /\ w0 = w)) /\
        cleanupAudio w0 = (inr tt, w1) /\ released w0 w1 /\
        r = (inr tt,
             with_recorderState
               (if bool_decide (recorderState w0 = ERROR) then ERROR else IDLE) w1)).
Proof.
  unfold handleRecordingStop_encoded, resume_try, translateAudio.
  destruct base64 as [b|e]; simpl.
  - destruct (truthy API_KEY) eqn:Hk; simpl.
    + left. exists b. done.
    + right. destruct (handleRecordingStop_finally_spec w)
        as (w1 & w' & Hc & Hrel & Hf & ->).
      exists w, w1. split; [right; eauto|]. done.
  - right.
    destruct (handleRecordingStop_finally_spec
                (with_recorderState ERROR
                   (with_log (log w ++ [ConsoleError "Error processing audio:"]) w)))
      as (w1 & w' & Hc & Hrel & Hf & ->).
    eexists _, w1. split; [left; eauto|]. split; [done|]. split; [done|].
    unfold try_finally, handleRecordingStop_catch, emit, setRecorderState, modify,
      mbind, M_bind. simpl.
    unfold handleRecordingStop_finally, mbind, M_bind in Hf.
    rewrite Hc in Hf. simpl in Hf.
    unfold handleRecordingStop_finally, mbind, M_bind. rewrite Hc. simpl.
    by injection Hf as ->.
Qed.

(** ** The recorder state at the end of a recording cycle *)

(** C5. When the translate step of a recording cycle settles, with a
    translation or with a failure, [handleRecordingStop] ends normally and
    leaves the state [ERROR] if it was [ERROR] and [IDLE] otherwise.  A cycle
    that ends before the translate step (the audio could not be encoded, or
    there is no key) ends in [ERROR] or [IDLE] as well; the only other
    outcome of that step is that the translate call is outstanding.  No way
    through [handleRecordingStop] ends in [PROCESSING]. *)
Theorem cycle_end_resets_state :
  (forall botMsgId mimeType base64Audio answers w,
      let r := handleRecordingStop_settled botMsgId mimeType base64Audio answers w in
      r.1 = inr tt
      /\ recorderState r.2
         = (if bool_decide (recorderState w = ERROR) then ERROR else IDLE)
      /\ recorderState r.2 <> PROCESSING)
  /\ (forall API_KEY mimeType base64 now date w,
        let r := handleRecordingStop_encoded API_KEY mimeType base64 now date w in
        r.1 = inr tt
        /\ ((exists base64Audio,
               tasks r.2 = tasks w ++ [AwaitTranslateAudio (pretty now) mimeType base64Audio])
            \/ (tasks r.2 = tasks w
                /\ (recorderState r.2 = IDLE \/ recorderState r.2 = ERROR)
                /\ recorderState r.2 <> PROCESSING))).
Proof.
  split.
  - intros b m a answers w.
    destruct (handleRecordingStop_settled_spec b m a answers w)
      as (msg & l & w1 & _ & _ & _ & ->).
    simpl. split; [done|]. split; [done|]. by case_bool_decide.
  - intros key m base64 now date w.
    destruct (handleRecordingStop_encoded_spec key m base64 now date w)
      as [(b & _ & _ & ->)|(w0 & w1 & Hw0 & _ & Hrel & ->)]; simpl.
    + split; [done|]. left. by exists b.
    + split; [done|]. right. split.
      * rewrite (rel_tasks _ _ Hrel).
        by destruct Hw0 as [(e & _ & ->)|(_ & _ & ->)].
      * case_bool_decide; auto.
Qed.

(** ** Release at the end of a recording cycle *)

(** On the two ways through the [finally] block of [handleRecordingStop]
    the stream the hook holds has no live track left, its audio context is
    closed and the volume is 0. *)
Lemma settled_cycle_releases b m a answers w h st :
  streamRef w = Some h -> streams w !! h = Some st ->
  let w' := (handleRecordingStop_settled b m a answers w).2 in
  (exists st', streams w' !! h = Some st' /\ active_tracks st' = 0%nat)
  /\ streamRef w' = None /\ audioContextRef w' = None /\ volume w' = 0%Q.
Proof.
  intros Hs Hst.
  destruct (handleRecordingStop_settled_spec b m a answers w)
    as (msg & l & w1 & _ & _ & Hrel & ->).
  simpl. split; [|by destruct Hrel].
  by apply (rel_tracks _ _ Hrel h st).
Qed.

Lemma encoding_failure_releases key m e now date w h st :
  streamRef w = Some h -> streams w !! h = Some st ->
  let w' := (handleRecordingStop_encoded key m (Rejected e) now date w).2 in
  (exists st', streams w' !! h = Some st' /\ active_tracks st' = 0%nat)
  /\ streamRef w' = None /\ volume w' = 0%Q /\ recorderState w' = ERROR.
Proof.
  intros Hs Hst.
  destruct (handleRecordingStop_encoded_spec key m (Rejected e) now date w)
    as [(b & [=] & _)|(w0 & w1 & Hw0 & _ & Hrel & ->)].
  destruct Hw0 as [(e' & _ & ->)|((b & [=]) & _)].
  simpl. split; [by apply (rel_tracks _ _ Hrel h st)|].
  by destruct Hrel.
Qed.

(** The release happens once: a second [cleanupAudio] finds the refs empty
    and stops or closes nothing. *)
Lemma cleanupAudio_once (w w1 : World) :
  cleanupAudio w = (inr tt, w1) ->
  exists w2, cleanupAudio w1 = (inr tt, w2) /\ log w2 = log w1 /\ streams w2 = streams w1.
Proof.
  intros H. destruct (cleanupAudio_released w) as (w1' & H' & Hrel).
  rewrite H in H'. injection H' as <-.
  unfold cleanupAudio, gets, mbind, M_bind, mret, M_ret, setVolume, modify.
  simpl. rewrite (rel_streamRef _ _ Hrel). simpl.
  rewrite (rel_contextRef _ _ Hrel). simpl.
  by eexists.
Qed.

(** A whole cycle, run: record, stop, encode, translate.  The state goes
    back to [IDLE], the one track of the stream has ended, the context is
    closed, the volume is 0 and the transcript holds the translation; when
    the remote fails instead, the transcript holds the error message and
    the rest is the same. *)
Example recording_cycle_translated :
  exists w,
    steps (Some "key")
      [TapMic; Settle 0 (UserMediaAnswer granted); TapMic;
       Settle 1 (RecorderStopAnswer "abc");
       Settle 1 (Base64Answer (Fulfilled "YWJj") 5000 5000);
       Settle 1 (RemoteAnswer (says "Hello"))] initial = Some w
    /\ recorderState w = IDLE
    /\ (fun item => (id item, text item, isUser item)) <$> transcriptions w
       = [("5000", "Hello", false)]
    /\ streams w = [[ended]] /\ contexts w = [closed]
    /\ streamRef w = None /\ audioContextRef w = None
    /\ volume w = 0%Q
    /\ filter (fun e => exists s t, e = TrackStop s t) (log w) = [TrackStop 0 0]
    /\ tasks w = [AnimationFrame].
Proof.
  eexists. split; [by vm_compute|].
  repeat split; by vm_compute.
Qed.

Example recording_cycle_failed :
  exists w,
    steps (Some "key")
      [TapMic; Settle 0 (UserMediaAnswer granted); TapMic;
       Settle 1 (RecorderStopAnswer "abc");
       Settle 1 (Base64Answer (Fulfilled "YWJj") 5000 5000);
       Settle 1 (RemoteAnswer (fun _ => Rejected server_error))] initial = Some w
    /\ recorderState w = IDLE
    /\ text <$> transcriptions w = ["Error during translation."]
    /\ streams w = [[ended]] /\ contexts w = [closed]
    /\ streamRef w = None /\ volume w = 0%Q
    /\ attempts (log w) = 1%nat /\ delays (log w) = [].
Proof.
  eexists. split; [by vm_compute|].
  repeat split; by vm_compute.
Qed.

(** ** Capture setup that fails after the microphone was granted *)

Lemma active_tracks_live (n : nat) : active_tracks (replicate n live) = n.
Proof.
  unfold active_tracks. induction n as [|n IH]; [done|].
  change (replicate (S n) live) with (live :: replicate n live).
  rewrite filter_cons_True by done. simpl. by rewrite IH.
Qed.

(** Whatever the world, when the microphone is granted and the recorder
    cannot be constructed, [startRecording] ends in [ERROR] with the granted
    stream held and all its tracks live, and has stopped and closed nothing. *)
Lemma recorder_failure_keeps_stream env n e (w : World) :
  userMedia env = Fulfilled n -> context_error env = None ->
  graph_error env = None -> recorder_error env = Some e ->
  let w' := run (startRecording_resume env) w in
  recorderState w' = ERROR
  /\ streamRef w' = Some (length (streams w))
  /\ streams w' !! length (streams w) = Some (replicate n live)
  /\ audioContextRef w' = Some (length (contexts w))
  /\ contexts w' !! length (contexts w) = Some running
  /\ log w' = log w ++ [ConsoleError "Failed to start recording:"].
Proof.
  intros Hu Hc Hg Hr.
  unfold run, startRecording_resume, try_catch, updateVolume, new_stream, new_context,
    may_throw, await, throw, emit, suspend, setRecorderState, setVolume, modify, gets,
    mbind, M_bind, mret, M_ret.
  rewrite Hu, Hc, Hg, Hr. cbn -[getByteFrequencyData].
  destruct (negb _); cbn -[getByteFrequencyData];
    rewrite !lookup_app_r, !Nat.sub_diag by done; done.
Qed.

(** C1, at the failing input.  The key is present, the user taps the mic,
    [getUserMedia] grants a stream with one track and [new MediaRecorder]
    throws.  The [catch] block of [startRecording] sets [ERROR] and releases
    nothing: the stream is still held in [streamRef] with its track live, no
    track was stopped and no context closed, and the volume loop it started
    is still scheduled, so that the next frame sets a volume that is not 0. *)
Theorem setup_failure_keeps_microphone :
  exists w w',
    steps (Some "key") [TapMic; Settle 0 (UserMediaAnswer recorder_unsupported)] initial
      = Some w
    /\ recorderState w = ERROR
    /\ streamRef w = Some 0%nat
    /\ active_tracks <$> streams w = [1%nat]
    /\ contexts w = [running]
    /\ tasks w = [AnimationFrame]
    /\ log w = [GetUserMedia; ConsoleError "Failed to start recording:"]
    /\ step (Some "key") (Settle 0 (FrameAnswer (fun _ => 64))) w = Some w'
    /\ ~ (volume w' == 0)%Q
    /\ active_tracks <$> streams w' = [1%nat].
Proof.
  eexists _, _. split; [by vm_compute|].
  repeat split; try by vm_compute.
Qed.

(** ** The mic button while processing *)

(** [toggleVoice] returns at once in [PROCESSING]. *)
Lemma toggleVoice_processing_ignored key (w : World) :
  recorderState w = PROCESSING -> toggleVoice key w = (inr tt, w).
Proof.
  intros H. unfold toggleVoice, gets, mbind, M_bind. by rewrite H.
Qed.

(** C6, at the failing input.  The user taps the mic twice before the
    microphone is granted, so that two calls of [startRecording] wait at
    [getUserMedia].  The first is granted and records; the user taps again,
    the recorder is stopped and the state is [PROCESSING].  Then the second
    call is granted: it runs on to [setRecorderState(RECORDING)] without
    looking at the state, and [PROCESSING] is followed by [RECORDING]. *)
Theorem pending_start_leaves_processing :
  exists w w',
    steps (Some "key") [TapMic; TapMic; Settle 0 (UserMediaAnswer granted); TapMic] initial
      = Some w
    /\ recorderState w = PROCESSING
    /\ tasks w = [AwaitUserMedia; AnimationFrame; RecorderStop 0]
    /\ step (Some "key") (Settle 0 (UserMediaAnswer granted)) w = Some w'
    /\ recorderState w' = RECORDING
    /\ transcriptions w' = transcriptions w
    /\ active_tracks <$> streams w' = [1%nat; 1%nat].
Proof.
  eexists _, _. split; [by vm_compute|].
  repeat split; by vm_compute.
Qed.

(** ** Concurrent text submissions *)

(** With ids that differ, a submission that settles leaves the item of the
    other alone. *)
Lemma translateText_resume_other b t answers w i item :
  transcriptions w !! i = Some item -> id item <> b ->
  transcriptions (translateText_resume b t answers w).2 !! i = Some item.
Proof.
  intros Hi Hne.
  destruct (translateText_resume_frame b t answers w) as (msg & l & ->).
  simpl. by apply resolve_miss.
Qed.

(** C7, at the failing input.  Two texts are submitted within the same
    millisecond: every [Date.now()] reads 1000.  Both source items get the
    id "1000" and both placeholders the id "1001".  The response for the
    second text arrives first and is written into both placeholders; the
    response for the first then overwrites both. *)
Theorem same_millisecond_submissions_share_ids :
  exists w1 w2 w3,
    steps (Some "key")
      [SendText "ami" 1000 1000 1000 1000; SendText "tumi" 1000 1000 1000 1000] initial
      = Some w1
    /\ (fun item => (id item, text item)) <$> transcriptions w1
       = [("1000", "ami"); ("1001", "Translating...");
          ("1000", "tumi"); ("1001", "Translating...")]
    /\ ~ NoDup (id <$> transcriptions w1)
    /\ tasks w1 = [AwaitTranslateText "1001" "ami"; AwaitTranslateText "1001" "tumi"]
    /\ step (Some "key") (Settle 1 (RemoteAnswer (says "you"))) w1 = Some w2
    /\ text <$> transcriptions w2 = ["ami"; "you"; "tumi"; "you"]
    /\ step (Some "key") (Settle 0 (RemoteAnswer (says "I"))) w2 = Some w3
    /\ text <$> transcriptions w3 = ["ami"; "I"; "tumi"; "I"].
Proof.
  eexists _, _, _. split; [by vm_compute|].
  split; [by vm_compute|].
  split.
  { intros Hnd. change (transcriptions _) with
      [mkItem "1000" "ami" true 1000; mkItem "1001" "Translating..." false 1000;
       mkItem "1000" "tumi" true 1000; mkItem "1001" "Translating..." false 1000] in Hnd.
    simpl in Hnd. apply NoDup_cons in Hnd as [Hnotin _].
    apply Hnotin. rewrite !elem_of_cons. auto. }
  repeat split; by vm_compute.
Qed.

(** One millisecond apart, the placeholder of the first text and the source
    item of the second share the id "1001": the translation of the first
    text replaces the second text itself. *)
Lemma next_millisecond_submission_is_overwritten :
  exists w1 w2,
    steps (Some "key")
      [SendText "ami" 1000 1000 1000 1000; SendText "tumi" 1001 1001 1001 1001] initial
      = Some w1
    /\ (fun item => (id item, text item, isUser item)) <$> transcriptions w1
       = [("1000", "ami", true); ("1001", "Translating...", false);
          ("1001", "tumi", true); ("1002", "Translating...", false)]
    /\ step (Some "key") (Settle 0 (RemoteAnswer (says "I"))) w1 = Some w2
    /\ (fun item => (text item, isUser item)) <$> transcriptions w2
       = [("ami", true); ("I", false); ("I", true); ("Translating...", false)].
Proof.
  eexists _, _. split; [by vm_compute|].
  repeat split; by vm_compute.
Qed.

(** ** Without the credential *)










(** ** What an audio cycle adds to the transcript *)

Lemma with_tasks_same (w : World) : with_tasks (tasks w) w = w.
Proof. by destruct w. Qed.

(** The callback registered last is the one at index [length ts]. *)
Lemma step_settle_last key (w : World) ts p a m :
  tasks w = ts ++ [p] -> continue key p a = Some m ->
  step key (Settle (length ts) a) w = Some (run m (with_tasks ts w)).
Proof.
  intros Ht Hc. simpl. rewrite Ht.
  rewrite list_lookup_middle by done. simpl. rewrite Hc. simpl.
  by rewrite (delete_middle ts [] p), app_nil_r.
Qed.

Lemma step_settle_none key (w : World) a :
  step key (Settle (length (tasks w)) a) w = None.
Proof. simpl. by rewrite lookup_ge_None_2. Qed.

(** The tap that ends a recording: either there is no active recorder and
    nothing happens, or the recorder is stopped and its [stop] event queued. *)
Lemma toggleVoice_recording key (w : World) :
  recorderState w = RECORDING ->
  run (toggleVoice key) w = w
  \/ exists r rec,
       recorders w !! r = Some rec /\
       run (toggleVoice key) w
       = with_recorderState PROCESSING
           (with_tasks (tasks w ++ [RecorderStop r])
              (with_log (log w ++ [RecorderStopped r])
                 (with_recorders
                    (<[r := mkRecorder inactive (mr_stream rec) (mr_mimeType rec)]>
                       (recorders w)) w))).
Proof.
  intros H. unfold run, toggleVoice, stopRecording, gets, mbind, M_bind. simpl.
  rewrite H. simpl.
  destruct (mediaRecorderRef w) as [r|]; [|by left].
  destruct (recorders w !! r) as [rec|] eqn:Hrec; [|by left].
  case_bool_decide; [|by left].
  right. exists r, rec. split; [done|].
  unfold stop_recorder, set_recorder_state, emit, suspend, setRecorderState, modify,
    mbind, M_bind. simpl. by rewrite Hrec.
Qed.

(** The [stop] event of a recorder: the last chunk is kept if it is not
    empty, and [handleRecordingStop] waits for the encoded audio. *)
Lemma recorder_onstop_spec r data (w : World) rec :
  recorders w !! r = Some rec ->
  exists chunks,
    run (recorder_onstop r data) w
    = with_tasks (tasks w ++ [AwaitBase64 (mr_mimeType rec) (foldr String.append "" chunks)])
        (with_audioChunksRef chunks w).
Proof.
  intros Hrec.
  unfold run, recorder_onstop, ondataavailable, handleRecordingStop, gets, suspend,
    modify, mbind, M_bind. simpl. rewrite Hrec.
  destruct (0 <? String.length data)%nat; simpl.
  - by eexists.
  - exists (audioChunksRef w). by destruct w.
Qed.

Lemma steps_cons key e es (w : World) :
  steps key (e :: es) w = (w' ← step key e w; steps key es w').
Proof. reflexivity. Qed.

Lemma step_tap key (w : World) : step key TapMic w = Some (run (toggleVoice key) w).
Proof. reflexivity. Qed.

Lemma option_bind_Some {A B} (f : A -> option B) (a : A) : (Some a ≫= f) = f a.
Proof. reflexivity. Qed.

(** C10. An uninterrupted audio cycle, from the tap that ends the recording
    to the end of [handleRecordingStop]: either it ends before the translate
    step, and the transcript is as it was, or the translate call settles, and
    the transcript is the old one with one item appended, the placeholder
    with [isUser = false], resolved under its id.  No item with
    [isUser = true] is added. *)
Theorem audio_cycle_appends_one_translation
    key (w : World) data base64 now date answers (w3 : World) :
  recorderState w = RECORDING ->
  steps key [TapMic;
             Settle (length (tasks w)) (RecorderStopAnswer data);
             Settle (length (tasks w)) (Base64Answer base64 now date)] w = Some w3 ->
  (tasks w3 = tasks w /\ transcriptions w3 = transcriptions w)
  \/ (exists w4 msg,
        step key (Settle (length (tasks w)) (RemoteAnswer answers)) w3 = Some w4
        /\ tasks w4 = tasks w
        /\ transcriptions w4
           = resolve (pretty now) msg
               (transcriptions w ++ [mkItem (pretty now) "Translating..." false date])
        /\ length (transcriptions w4) = S (length (transcriptions w))
        /\ isUser <$> transcriptions w4 = (isUser <$> transcriptions w) ++ [false]).
Proof.
  intros Hrec Hsteps.
  rewrite !steps_cons in Hsteps.
  rewrite step_tap in Hsteps.
  destruct (toggleVoice_recording key w Hrec) as [Hw1|(r & rec & Hr & Hw1)];
    rewrite Hw1 in Hsteps; clear Hw1; rewrite option_bind_Some in Hsteps;
    cbv beta in Hsteps; rewrite steps_cons in Hsteps.
  { by rewrite step_settle_none in Hsteps. }
  (* the stop event *)
  match type of Hsteps with context [step key _ ?x] => set (w1 := x) in Hsteps end.
  rewrite (step_settle_last key w1 (tasks w) (RecorderStop r)
             (RecorderStopAnswer data) (recorder_onstop r data) eq_refl eq_refl) in Hsteps.
  rewrite option_bind_Some in Hsteps. cbv beta in Hsteps.
  rewrite steps_cons in Hsteps.
  destruct (recorder_onstop_spec r data (with_tasks (tasks w) w1)
              (mkRecorder inactive (mr_stream rec) (mr_mimeType rec)))
    as [chunks Hw2].
  { simpl. apply list_lookup_insert_eq. by eapply lookup_lt_Some. }
  rewrite Hw2 in Hsteps. clear Hw2. simpl mr_mimeType in Hsteps.
  (* the encoded audio *)
  match type of Hsteps with context [step key _ ?x] => set (w2 := x) in Hsteps end.
  rewrite (step_settle_last key w2 (tasks w) (AwaitBase64 _ _)
             (Base64Answer base64 now date)
             (handleRecordingStop_encoded key (mr_mimeType rec) base64 now date)
             eq_refl eq_refl) in Hsteps.
  rewrite option_bind_Some in Hsteps. simpl in Hsteps. injection Hsteps as <-.
  destruct (handleRecordingStop_encoded_spec key (mr_mimeType rec) base64 now date
              (with_tasks (tasks w) w2))
    as [(b & _ & _ & Hw3)|(w0 & w1' & Hw0 & _ & Hrel & Hw3)];
    unfold run; rewrite Hw3; clear Hw3; cbn [snd].
  - (* the translate call is outstanding *)
    right.
    match goal with |- context [step key _ ?x] => set (w3 := x) end.
    destruct (handleRecordingStop_answered_spec (pretty now) (mr_mimeType rec) b answers
                (with_tasks (tasks w) w3))
      as (msg & l & w4 & _ & _ & Hrel & Hw4).
    eexists _, msg.
    rewrite (step_settle_last key w3 (tasks w) (AwaitTranslateAudio _ _ _)
               (RemoteAnswer answers)
               (handleRecordingStop_answered (pretty now) (mr_mimeType rec) b answers)
               eq_refl eq_refl).
    split; [reflexivity|]. unfold run. rewrite Hw4. simpl.
    rewrite (rel_tasks _ _ Hrel), (rel_transcriptions _ _ Hrel). simpl.
    split; [done|]. split; [done|]. split.
    + rewrite resolve_length, length_app. simpl. lia.
    + by rewrite resolve_isUser, fmap_app.
  - (* the cycle is over *)
    left. simpl. rewrite (rel_tasks _ _ Hrel), (rel_transcriptions _ _ Hrel).
    by destruct Hw0 as [(e & _ & ->)|(_ & _ & ->)].
Qed.

Lemma audio_cycle_appends_one_translation_witness :
  (tasks encoded_world = tasks recording_world
   /\ transcriptions encoded_world = transcriptions recording_world)
  \/ (exists w4 msg,
        step (Some "key") (Settle 1 (RemoteAnswer (says "Hello"))) encoded_world = Some w4
        /\ tasks w4 = tasks recording_world
        /\ transcriptions w4
           = resolve (pretty 5000) msg
               (transcriptions recording_world
                ++ [mkItem (pretty 5000) "Translating..." false 5000])
        /\ length (transcriptions w4) = S (length (transcriptions recording_world))
        /\ isUser <$> transcriptions w4
           = (isUser <$> transcriptions recording_world) ++ [false]).
Proof.
  apply (audio_cycle_appends_one_translation (Some "key") recording_world "abc"
           (Fulfilled "YWJj") 5000 5000 (says "Hello") encoded_world).
  - reflexivity.
  - by vm_compute.
Defined.

(** ** Frame reasoning: what a computation leaves alone *)

Section Frame.
Context {B : Type} (f : World -> B).

Lemma preserves_ret {A} (a : A) : preserves f (mret a).
Proof. by intros w. Qed.

Lemma preserves_throw {A} (e : JsError) : preserves f (@throw A e).
Proof. by intros w. Qed.

Lemma preserves_gets {A} (g : World -> A) : preserves f (gets g).
Proof. by intros w. Qed.

Lemma preserves_bind {A C} (m : M A) (k : A -> M C) :
  preserves f m -> (forall a, preserves f (k a)) -> preserves f (m ≫= k).
Proof.
  intros Hm Hk w. unfold mbind, M_bind. specialize (Hm w).
  destruct (m w) as [[e|a] w1]; simpl in *; [done|].
  by rewrite Hk.
Qed.

Lemma preserves_try_catch {A} (m : M A) (h : JsError -> M A) :
  preserves f m -> (forall e, preserves f (h e)) -> preserves f (try_catch m h).
Proof.
  intros Hm Hh w. unfold try_catch. specialize (Hm w).
  destruct (m w) as [[e|a] w1]; simpl in *; [|done].
  by rewrite Hh.
Qed.

Lemma preserves_modify (g : World -> World) :
  (forall w, f (g w) = f w) -> preserves f (modify g).
Proof. intros Hg w. apply Hg. Qed.
End Frame.

(** Breaks a computation down to the calls and [modify] steps it is made of. *)
Ltac frame_step :=
  lazymatch goal with
  | |- preserves _ (mret _) => apply preserves_ret
  | |- preserves _ (throw _) => apply preserves_throw
  | |- preserves _ (gets _) => apply preserves_gets
  | |- preserves _ (_ ≫= _) => apply preserves_bind; [|intros ?]
  | |- preserves _ (try_catch _ _) => apply preserves_try_catch; [|intros ?]
  | |- preserves _ (modify _) => apply preserves_modify; intros ?; try reflexivity
  | |- preserves _ (match ?x with _ => _ end) => destruct x
  end.

Ltac frame :=
  unfold await, may_throw, emit, suspend, setRecorderState, setRecorderState_fn,
    setVolume, setTranscriptions;
  repeat frame_step.

Create HintDb frame.

Lemma new_objects_preserve {B} (f : World -> B) :
  (forall v w, f (with_streams v w) = f w) ->
  (forall v w, f (with_contexts v w) = f w) ->
  (forall v w, f (with_recorders v w) = f w) ->
  (forall n, preserves f (new_stream n))
  /\ preserves f new_context
  /\ (forall s m, preserves f (new_recorder s m))
  /\ (forall r s, preserves f (set_recorder_state r s)).
Proof.
  intros Hs Hc Hr. repeat split; intros; intros w; simpl; try done.
  unfold set_recorder_state, modify. simpl. by destruct (recorders w !! r).
Qed.

Lemma updateVolume_transcriptions sample : preserves transcriptions (updateVolume sample).
Proof. unfold updateVolume. frame. Qed.

Lemma updateVolume_recorderState sample : preserves recorderState (updateVolume sample).
Proof. unfold updateVolume. frame. Qed.

#[global] Hint Resolve updateVolume_transcriptions updateVolume_recorderState : frame.

Lemma startRecording_resume_transcriptions env :
  preserves transcriptions (startRecording_resume env).
Proof.
  destruct (new_objects_preserve transcriptions) as (Hs & Hc & Hr & Hst); try done.
  unfold startRecording_resume, start_recorder. frame; auto with frame.
Qed.

Lemma stopRecording_transcriptions : preserves transcriptions stopRecording.
Proof.
  destruct (new_objects_preserve transcriptions) as (Hs & Hc & Hr & Hst); try done.
  unfold stopRecording, stop_recorder. frame; auto.
Qed.

Lemma toggleVoice_transcriptions key : preserves transcriptions (toggleVoice key).
Proof.
  unfold toggleVoice, startRecording. frame; auto using stopRecording_transcriptions.
Qed.

Lemma recorder_onstop_transcriptions r data :
  preserves transcriptions (recorder_onstop r data).
Proof. unfold recorder_onstop, ondataavailable, handleRecordingStop. frame. Qed.

Lemma recorder_onstop_recorderState r data :
  preserves recorderState (recorder_onstop r data).
Proof. unfold recorder_onstop, ondataavailable, handleRecordingStop. frame. Qed.

Lemma handleSend_recorderState key t now1 date1 now2 date2 :
  preserves recorderState (handleSend key t now1 date1 now2 date2).
Proof. unfold handleSend, translateText. frame. Qed.

(** ** From processing to recording *)

(** Which events can lead from [PROCESSING] to [RECORDING]: none but the
    resumption of a [startRecording] call that was waiting at
    [getUserMedia].  No tap, text submission, frame, recorder event,
    encoding or translation result does it. *)
Lemma processing_to_recording key e (w w' : World) :
  step key e w = Some w' ->
  recorderState w = PROCESSING -> recorderState w' = RECORDING ->
  exists i env, e = Settle i (UserMediaAnswer env) /\ tasks w !! i = Some AwaitUserMedia.
Proof.
  intros Hstep Hp Hr. destruct e as [|t n1 d1 n2 d2|i a| |]; simpl in Hstep.
  - injection Hstep as <-. unfold run in Hr.
    rewrite (toggleVoice_processing_ignored key w Hp) in Hr. simpl in Hr. congruence.
  - injection Hstep as <-. unfold run in Hr.
    rewrite handleSend_recorderState in Hr. congruence.
  - destruct (tasks w !! i) as [p|] eqn:Hi; [|done]. simpl in Hstep.
    destruct p, a; simpl in Hstep; try done; injection Hstep as <-; unfold run in Hr.
    + by exists i, env.
    + rewrite updateVolume_recorderState in Hr. simpl in Hr. congruence.
    + rewrite recorder_onstop_recorderState in Hr. simpl in Hr. congruence.
    + destruct (handleRecordingStop_encoded_spec key mimeType base64 now date
                  (with_tasks (delete i (tasks w)) w))
        as [(b & _ & _ & Hw)|(w0 & w1 & _ & _ & _ & Hw)];
        rewrite Hw in Hr; simpl in Hr; [congruence|].
      by case_bool_decide.
    + destruct (handleRecordingStop_answered_spec botMsgId mimeType base64Audio answers
                  (with_tasks (delete i (tasks w)) w))
        as (msg & l & w1 & _ & _ & _ & Hw).
      rewrite Hw in Hr; simpl in Hr. rewrite Hp in Hr. done.
    + destruct (translateText_answered_frame botMsgId text0 answers
                  (with_tasks (delete i (tasks w)) w)) as (msg & l & Hw & _).
      rewrite Hw in Hr. simpl in Hr. congruence.
  - injection Hstep as <-. simpl in Hr. congruence.
  - injection Hstep as <-. unfold run in Hr.
    destruct (cleanupAudio_released w) as (w1 & Hc & Hrel). rewrite Hc in Hr.
    simpl in Hr. rewrite (rel_state _ _ Hrel) in Hr. congruence.
Qed.

(** ** Source items come from text submissions only *)

(** Whatever else is in flight, every event other than a text submission
    and [clearHistory] leaves the [isUser] flags of the transcript as they
    are, or appends one [false]. *)
Lemma audio_events_add_no_source_item key e (w w' : World) :
  step key e w = Some w' ->
  (forall t now1 date1 now2 date2, e <> SendText t now1 date1 now2 date2) ->
  e <> ClearHistory ->
  exists l,
    isUser <$> transcriptions w' = (isUser <$> transcriptions w) ++ l
    /\ (l = [] \/ l = [false]).
Proof.
  intros Hstep Hsend Hclear.
  destruct e as [|t n1 d1 n2 d2|i a| |]; simpl in Hstep; try congruence.
  - injection Hstep as <-. exists []. unfold run.
    rewrite toggleVoice_transcriptions, app_nil_r. auto.
  - destruct (tasks w !! i) as [p|] eqn:Hi; [|done]. simpl in Hstep.
    destruct p, a; simpl in Hstep; try done; injection Hstep as <-; unfold run.
    + exists []. rewrite app_nil_r, startRecording_resume_transcriptions. auto.
    + exists []. rewrite app_nil_r, updateVolume_transcriptions. auto.
    + exists []. rewrite app_nil_r, recorder_onstop_transcriptions. auto.
    + destruct (handleRecordingStop_encoded_spec key mimeType base64 now date
                  (with_tasks (delete i (tasks w)) w))
        as [(b & _ & _ & Hw)|(w0 & w1 & Hw0 & _ & Hrel & Hw)]; rewrite Hw; simpl.
      * exists [false]. rewrite fmap_app. auto.
      * exists []. rewrite app_nil_r, (rel_transcriptions _ _ Hrel).
        split; [|auto]. by destruct Hw0 as [(e & _ & ->)|(_ & _ & ->)].
    + destruct (handleRecordingStop_answered_spec botMsgId mimeType base64Audio answers
                  (with_tasks (delete i (tasks w)) w))
        as (msg & l & w1 & _ & _ & Hrel & Hw).
      rewrite Hw. simpl. exists [].
      rewrite app_nil_r, (rel_transcriptions _ _ Hrel). simpl.
      rewrite resolve_isUser. auto.
    + destruct (translateText_answered_frame botMsgId text0 answers
                  (with_tasks (delete i (tasks w)) w)) as (msg & l & Hw & _).
      rewrite Hw. simpl. exists []. rewrite app_nil_r, resolve_isUser. auto.
  - injection Hstep as <-. unfold run.
    destruct (cleanupAudio_released w) as (w1 & Hc & Hrel). rewrite Hc. simpl.
    exists []. rewrite app_nil_r, (rel_transcriptions _ _ Hrel). auto.
Qed.

(** * Further properties *)

(** ** The retry loop, in closed form *)


Lemma decisive_le answers : (decisive answers <= 2)%nat.
Proof.
  unfold decisive. destruct (retried answers 0); [destruct (retried answers 1)|]; lia.
Qed.






(** ** The text flow, from submission to translation *)

Lemma resolve_fresh (b t : string) (l : list TranscriptionItem) :
  Forall (fun item => id item <> b) l -> resolve b t l = l.
Proof.
  intros H. unfold resolve. induction H as [|item l Hne _ IH]; [done|].
  rewrite fmap_cons, IH. by rewrite bool_decide_eq_false_2.
Qed.

Lemma resolve_app (b t : string) (l1 l2 : list TranscriptionItem) :
  resolve b t (l1 ++ l2) = resolve b t l1 ++ resolve b t l2.
Proof. unfold resolve. apply fmap_app. Qed.

Lemma handleSend_accepted key t now1 date1 now2 date2 (w : World) :
  truthy key = true -> trim t <> "" ->
  run (handleSend key t now1 date1 now2 date2) w
  = with_tasks (tasks w ++ [AwaitTranslateText (pretty (now2 + 1)) t])
      (with_log (log w ++ [GenerateContent (text_request t)])
         (with_transcriptions
            (transcriptions w
             ++ [mkItem (pretty now1) t true date1;
                 mkItem (pretty (now2 + 1)) "Translating..." false date2]) w)).
Proof.
  intros Hk Ht. unfold run, handleSend, translateText.
  assert (Htr : truthy (Some (trim t)) = true).
  { simpl. destruct (String.eqb_spec (trim t) ""); done. }
  rewrite Htr, Hk. simpl. unfold with_tasks, with_log, with_transcriptions. simpl.
  by rewrite <- app_assoc.
Qed.

(** X4. A text submission that is translated: with the key present, a text
    that [trim] does not empty (it is not made of white space only, Unicode
    white space included), a clock that did not step back by one millisecond
    between the two readings, and a placeholder id no earlier item has, the
    submission followed by the arrival of a response with text leaves the
    transcript extended by exactly the source item, with the text as typed,
    and the translation item; the callback is consumed and the recorder
    state is as before. *)
Theorem text_flow_end_to_end
    key t now1 date1 now2 date2 answers (r : GenerateContentResponse) (s : string)
    (w : World) :
  truthy key = true -> trim t <> "" ->
  now2 + 1 <> now1 ->
  Forall (fun item => id item <> pretty (now2 + 1)) (transcriptions w) ->
  outcome (answers (decisive answers)) = inr (Some r) ->
  r_text r = Some s -> s <> "" ->
  exists w',
    steps key [SendText t now1 date1 now2 date2;
               Settle (length (tasks w)) (RemoteAnswer answers)] w = Some w'
    /\ transcriptions w'
       = transcriptions w
         ++ [mkItem (pretty now1) t true date1; mkItem (pretty (now2 + 1)) s false date2]
    /\ tasks w' = tasks w
    /\ recorderState w' = recorderState w
    /\ requests (log w')
       = requests (log w) ++ replicate (S (decisive answers)) (text_request t).
Proof.
  intros Hk Ht Hclock Hfresh Hout Hr Hs.
  set (w1 := run (handleSend key t now1 date1 now2 date2) w).
  assert (Hw1 : w1 = _) by apply (handleSend_accepted key t now1 date1 now2 date2 w Hk Ht).
  set (w1' := with_tasks (tasks w) w1).
  pose proof (generate_loop_answered_decided (text_request t) answers w1') as Hloop.
  rewrite Hout in Hloop.
  eexists. split.
  { rewrite steps_cons. change (step key (SendText _ _ _ _ _) w) with (Some w1).
    rewrite option_bind_Some. cbv beta. rewrite steps_cons.
    rewrite (step_settle_last key w1 (tasks w) (AwaitTranslateText (pretty (now2 + 1)) t)
               (RemoteAnswer answers)
               (translateText_answered (pretty (now2 + 1)) t answers));
      [|by rewrite Hw1|done].
    rewrite option_bind_Some. reflexivity. }
  unfold run. fold w1'.
  unfold translateText_answered, try_catch, mbind, M_bind. rewrite Hloop. simpl.
  rewrite Hr. simpl. destruct (String.eqb_spec s ""); [done|].
  subst w1' w1. rewrite Hw1. simpl.
  split; [|split; [done|split; [done|]]].
  - rewrite resolve_app, (resolve_fresh _ _ _ Hfresh). f_equal.
    unfold resolve. simpl. rewrite bool_decide_eq_false_2.
    + by rewrite bool_decide_eq_true_2.
    + intros Heq. apply Hclock. symmetry. by apply (inj pretty).
  - unfold requests. rewrite !omap_app, <- app_assoc. f_equal.
    unfold decisive. by destruct (retried answers 0); [destruct (retried answers 1)|].
Qed.

Lemma text_flow_end_to_end_witness :
  exists w',
    steps (Some "key")
      [SendText "nomoskar" 1000 1000 1000 1000;
       Settle 0 (RemoteAnswer third_time_lucky)] initial = Some w'
    /\ transcriptions w'
       = [mkItem "1000" "nomoskar" true 1000; mkItem "1001" "Hello" false 1000]
    /\ tasks w' = []
    /\ recorderState w' = IDLE
    /\ requests (log w') = replicate 3 (text_request "nomoskar").
Proof.
  apply (text_flow_end_to_end (Some "key") "nomoskar" 1000 1000 1000 1000
           third_time_lucky (mkResponse (Some "Hello")) "Hello" initial);
    try reflexivity; try discriminate; try done.
Defined.

(** ** Blank input *)

Lemma strip_white_space (cp : N) (s : string) :
  cp ∈ white_space -> strip false (utf8 cp +:+ s) = strip false s.
Proof.
  unfold white_space. intros H.
  repeat (apply elem_of_cons in H as [->|H]; [reflexivity|]).
  by apply elem_of_nil in H.
Qed.

Lemma trim_start_blank (cps : list N) : blank cps -> trim_start (utf8_text cps) = "".
Proof.
  unfold trim_start. induction 1 as [|cp cps Hcp _ IH]; [done|].
  change (utf8_text (cp :: cps)) with (utf8 cp +:+ utf8_text cps).
  by rewrite strip_white_space.
Qed.

Lemma trim_blank (cps : list N) : blank cps -> trim (utf8_text cps) = "".
Proof. intros Hb. unfold trim. by rewrite (trim_start_blank cps Hb). Qed.

Lemma all_from_spec (p : N -> bool) (k : nat) (c cp : N) :
  all_from p k c = true -> (c <= cp < c + N.of_nat k)%N -> p cp = true.
Proof.
  revert c. induction k as [|k IH]; intros c H Hcp; [lia|].
  cbn [all_from] in H. apply andb_true_iff in H as [Hc H].
  destruct (decide (cp = c)) as [->|Hne]; [done|].
  apply (IH (N.succ c)); [done|lia].
Qed.

(** A character that is not white space is never stripped: [trim] leaves
    every other code point below U+10000 as it is, the Bengali letters
    among them. *)
Lemma trim_other (cp : N) :
  (cp < 65536)%N -> cp ∉ white_space -> trim (utf8 cp) = utf8 cp.
Proof.
  intros Hlt Hcp.
  assert (H : all_from (fun cp => existsb (N.eqb cp) white_space
                                  || String.eqb (trim (utf8 cp)) (utf8 cp))
                (Z.to_nat 65536) 0%N = true) by (vm_compute; reflexivity).
  apply (all_from_spec _ _ _ cp) in H; [|lia].
  apply orb_true_iff in H as [H|H].
  - exfalso. apply Hcp. apply existsb_exists in H as (x & Hx & He).
    apply N.eqb_eq in He. subst x. by apply list_elem_of_In.
  - by apply String.eqb_eq in H.
Qed.

(** X5. A text of white space only is not submitted, whatever white space of
    the language it is made of (tabs, line ends, spaces, no-break spaces and
    the other Unicode spaces, the byte order mark): [trim] empties it, and
    [handleSend] and [translateText] leave the world as it is, whether or
    not there is a key; nothing is added to the transcript and nothing is
    sent. *)
Theorem blank_text_is_ignored key cps now1 date1 now2 date2 (w : World) :
  blank cps ->
  let t := utf8_text cps in
  trim t = ""
  /\ handleSend key t now1 date1 now2 date2 w = (inr tt, w)
  /\ translateText key t now1 date1 now2 date2 w = (inr Returned, w).
Proof.
  intros Hb t.
  assert (Ht : trim t = "") by exact (trim_blank cps Hb).
  split; [done|]. unfold handleSend, translateText. rewrite Ht. simpl.
  split; [done|]. by rewrite orb_true_r.
Qed.

Lemma blank_text_is_ignored_witness :
  blank [32; 160; 9; 8232; 12288; 65279]%N
  /\ handleSend (Some "key") (utf8_text [32; 160; 9; 8232; 12288; 65279]%N)
       1000 1000 1000 1000 initial
     = (inr tt, initial).
Proof.
  assert (Hb : blank [32; 160; 9; 8232; 12288; 65279]%N).
  { unfold blank, white_space. repeat constructor. }
  split; [exact Hb|].
  apply (blank_text_is_ignored (Some "key") _ 1000 1000 1000 1000 initial Hb).
Defined.

(** ** What the text flow leaves alone *)

Lemma generate_loop_preserves {B} (f : World -> B) req answers n d :
  (forall l w, f (with_log l w) = f w) ->
  preserves f (generate_loop req answers n d).
Proof.
  intros Hf w. destruct (generate_loop_frame req answers n d w) as [l ->].
  apply Hf.
Qed.

(** X6. The text flow is independent of recording: neither the submission
    of a text nor the arrival of its response, translation or failure,
    changes the recorder state, the volume, any ref or any browser object. *)
Theorem text_flow_leaves_recording_alone :
  (forall key t now1 date1 now2 date2,
      preserves audio_side (handleSend key t now1 date1 now2 date2))
  /\ (forall botMsgId t answers,
        preserves audio_side (translateText_resume botMsgId t answers)).
Proof.
  split.
  - intros. unfold handleSend, translateText. frame.
  - intros. unfold translateText_resume. frame.
    by apply generate_loop_preserves.
Qed.

(** ** The transcript is append-only *)

Lemma resolve_skeleton (b t : string) (prev : list TranscriptionItem) :
  skeleton <$> resolve b t prev = skeleton <$> prev.
Proof.
  unfold resolve. rewrite <- list_fmap_compose. apply list_fmap_ext.
  intros i item _. simpl. by case_bool_decide.
Qed.

Lemma step_skeleton key e (w w' : World) :
  step key e w = Some w' -> e <> ClearHistory ->
  exists l,
    skeleton <$> transcriptions w' = (skeleton <$> transcriptions w) ++ l
    /\ (length l <= 2)%nat.
Proof.
  intros Hstep Hclear.
  destruct e as [|t n1 d1 n2 d2|i a| |]; simpl in Hstep; try congruence.
  - injection Hstep as <-. exists []. unfold run.
    rewrite toggleVoice_transcriptions, app_nil_r. split; [done|simpl; lia].
  - injection Hstep as <-. unfold run, handleSend, translateText.
    destruct (truthy (Some (trim t))); simpl;
      [|exists []; rewrite app_nil_r; split; [done|simpl; lia]].
    destruct (truthy key); simpl;
      [|exists []; rewrite app_nil_r; split; [done|simpl; lia]].
    eexists [_; _]. rewrite <- app_assoc, fmap_app. split; [reflexivity|simpl; lia].
  - destruct (tasks w !! i) as [p|] eqn:Hi; [|done]. simpl in Hstep.
    destruct p, a; simpl in Hstep; try done; injection Hstep as <-; unfold run.
    + exists []. rewrite app_nil_r, startRecording_resume_transcriptions.
      split; [done|simpl; lia].
    + exists []. rewrite app_nil_r, updateVolume_transcriptions.
      split; [done|simpl; lia].
    + exists []. rewrite app_nil_r, recorder_onstop_transcriptions.
      split; [done|simpl; lia].
    + destruct (handleRecordingStop_encoded_spec key mimeType base64 now date
                  (with_tasks (delete i (tasks w)) w))
        as [(b & _ & _ & Hw)|(w0 & w1 & Hw0 & _ & Hrel & Hw)]; rewrite Hw; simpl.
      * eexists [_]. rewrite fmap_app. split; [reflexivity|simpl; lia].
      * exists []. rewrite app_nil_r, (rel_transcriptions _ _ Hrel).
        split; [|simpl; lia]. by destruct Hw0 as [(e & _ & ->)|(_ & _ & ->)].
    + destruct (handleRecordingStop_answered_spec botMsgId mimeType base64Audio answers
                  (with_tasks (delete i (tasks w)) w))
        as (msg & l & w1 & _ & _ & Hrel & Hw).
      rewrite Hw. simpl. exists [].
      rewrite app_nil_r, (rel_transcriptions _ _ Hrel). simpl.
      rewrite resolve_skeleton. split; [done|simpl; lia].
    + destruct (translateText_answered_frame botMsgId text0 answers
                  (with_tasks (delete i (tasks w)) w)) as (msg & l & Hw & _).
      rewrite Hw. simpl. exists []. rewrite app_nil_r, resolve_skeleton.
      split; [done|simpl; lia].
  - injection Hstep as <-. unfold run.
    destruct (cleanupAudio_released w) as (w1 & Hc & Hrel). rewrite Hc. simpl.
    exists []. rewrite app_nil_r, (rel_transcriptions _ _ Hrel).
    split; [done|simpl; lia].
Qed.

(** X7. Along every run without [clearHistory], the transcript only grows
    at its end, by at most two items per event, and no item ever changes
    its id, its [isUser] flag or its timestamp: only the text of an item is
    rewritten. *)
Theorem transcript_is_append_only key es (w w' : World) :
  Forall (fun e => e <> ClearHistory) es ->
  steps key es w = Some w' ->
  (skeleton <$> transcriptions w) `prefix_of` (skeleton <$> transcriptions w')
  /\ (length (transcriptions w') <= length (transcriptions w) + 2 * length es)%nat.
Proof.
  intros Hes. revert w. induction Hes as [|e es He _ IH]; intros w Hsteps.
  - simpl in Hsteps. injection Hsteps as <-. split; [done|lia].
  - rewrite steps_cons in Hsteps.
    destruct (step key e w) as [w1|] eqn:E; [|done].
    rewrite option_bind_Some in Hsteps.
    destruct (step_skeleton key e w w1 E He) as (l & Hl & Hlen).
    destruct (IH w1 Hsteps) as [Hpre Hlen'].
    split.
    + etrans; [|exact Hpre]. rewrite Hl. by apply prefix_app_r.
    + assert (length (transcriptions w1) <= length (transcriptions w) + 2)%nat.
      { rewrite <- (length_fmap skeleton (transcriptions w1)), Hl, length_app,
          length_fmap. lia. }
      simpl. lia.
Qed.

Lemma transcript_is_append_only_witness :
  (skeleton <$> transcriptions initial)
    `prefix_of` (skeleton <$> transcriptions encoded_world).
Proof.
  apply (proj1 (transcript_is_append_only (Some "key")
                  [TapMic; Settle 0 (UserMediaAnswer granted);
                   TapMic; Settle 1 (RecorderStopAnswer "abc");
                   Settle 1 (Base64Answer (Fulfilled "YWJj") 5000 5000)]
                  initial encoded_world
                  ltac:(repeat constructor; discriminate) ltac:(by vm_compute))).
Defined.

(** ** How [startRecording] ends *)

(** X8. Once [getUserMedia] has settled, [startRecording] ends normally, in
    [RECORDING] when every step of the setup succeeded and in [ERROR]
    otherwise, and never touches the transcript.  On success the new
    recorder is recording the granted stream in the preferred format (mp4
    before ogg before webm) and the chunks are empty; when the microphone
    is refused, nothing but the state and the console has changed. *)
Theorem startRecording_outcome env (w : World) :
  let r := startRecording_resume env w in
  r.1 = inr tt
  /\ transcriptions r.2 = transcriptions w
  /\ recorderState r.2 = (if setup_ok env then RECORDING else ERROR)
  /\ (setup_ok env = true ->
      streamRef r.2 = Some (length (streams w))
      /\ mediaRecorderRef r.2 = Some (length (recorders w))
      /\ recorders r.2 !! length (recorders w)
         = Some (mkRecorder recording (length (streams w)) (preferred_mimeType env))
      /\ audioChunksRef r.2 = []
      /\ log r.2 = log w ++ [RecorderStarted (length (recorders w))])
  /\ (forall e, userMedia env = Rejected e ->
      r.2 = with_recorderState ERROR
              (with_log (log w ++ [ConsoleError "Failed to start recording:"]) w)).
Proof.
  unfold setup_ok, preferred_mimeType.
  unfold startRecording_resume, try_catch, updateVolume, start_recorder,
    set_recorder_state, new_stream, new_context, new_recorder, may_throw, await,
    throw, emit, suspend, setRecorderState, setVolume, modify, gets,
    mbind, M_bind, mret, M_ret.
  destruct (userMedia env) as [n|e]; cbn -[getByteFrequencyData sum_list_Z].
  2:{ repeat split; try done; by intros e' [= <-]. }
  destruct (context_error env); cbn -[getByteFrequencyData sum_list_Z];
    [repeat split; done|].
  destruct (graph_error env); cbn -[getByteFrequencyData sum_list_Z];
    [repeat split; done|].
  destruct (negb _); cbn -[getByteFrequencyData sum_list_Z];
    (destruct (recorder_error env); cbn -[getByteFrequencyData sum_list_Z];
       [repeat split; done|]);
    (destruct (start_error env); cbn -[getByteFrequencyData sum_list_Z];
       [repeat split; done|]);
    rewrite !lookup_app_r, !Nat.sub_diag by done; cbn -[getByteFrequencyData sum_list_Z];
    (repeat split; try done).
  all: apply list_lookup_insert_eq; rewrite length_app; simpl; lia.
Qed.

Lemma startRecording_outcome_witness :
  setup_ok granted = true
  /\ recorders (startRecording_resume granted initial).2 !! 0%nat
     = Some (mkRecorder recording 0 "audio/webm").
Proof.
  split; [reflexivity|].
  destruct (startRecording_outcome granted initial) as (_ & _ & _ & H & _).
  destruct (H eq_refl) as (_ & _ & Hr & _). exact Hr.
Defined.

(** ** The audio flow, from the stop tap to the translation *)

Lemma requests_app (l1 l2 : list Effect) :
  requests (l1 ++ l2) = requests l1 ++ requests l2.
Proof. apply omap_app. Qed.

Lemma requests_trace_upto req k :
  (k <= 2)%nat -> requests (trace_upto req k) = replicate (S k) req.
Proof.
  intros H. destruct k as [|[|[|k]]]; try reflexivity. lia.
Qed.

Lemma requests_TrackStop h (st : list MediaStreamTrackState) :
  requests (imap (fun i _ => TrackStop h i) st) = [].
Proof.
  unfold requests.
  assert (H : forall (f : nat -> nat),
             omap (fun e => match e with GenerateContent req => Some req | _ => None end)
               (imap (fun i _ => TrackStop h (f i)) st) = []).
  { induction st as [|t st IH]; intros f; [done|]. simpl. apply (IH (f ∘ S)). }
  apply (H (fun i => i)).
Qed.

(** Releasing the audio sends nothing. *)
Lemma cleanupAudio_requests : preserves (fun w => requests (log w)) cleanupAudio.
Proof.
  unfold cleanupAudio, stop_tracks, close_context. frame.
  - destruct (streams _ !! _); [|done]. simpl.
    by rewrite requests_app, requests_TrackStop, app_nil_r.
  - simpl. by rewrite requests_app, app_nil_r.
Qed.

Lemma handleRecordingStop_finally_requests :
  preserves (fun w => requests (log w)) handleRecordingStop_finally.
Proof.
  unfold handleRecordingStop_finally. frame. apply cleanupAudio_requests.
Qed.

Lemma requests_trace_after req k :
  (k <= 2)%nat -> requests (trace_after req k) = replicate k req.
Proof.
  intros H. destruct k as [|[|[|k]]]; try reflexivity. lia.
Qed.

(** [prev.map], item by item. *)
Lemma resolve_written (b t : string) (prev : list TranscriptionItem) :
  resolve b t prev = written b t prev.
Proof.
  unfold resolve, written. apply list_fmap_ext. intros i item _.
  destruct (String.eqb_spec (id item) b) as [E|E].
  - by rewrite bool_decide_eq_true_2.
  - by rewrite bool_decide_eq_false_2.
Qed.

Lemma final_text_ok (res : option GenerateContentResponse) (fallback : string) :
  or_else (res ≫= r_text) fallback = final_text fallback (inr res).
Proof. by destruct res as [[[s|]]|]. Qed.

Lemma final_text_err (e : JsError) (fallback : string) :
  errorMessage e = final_text fallback (inl e).
Proof. reflexivity. Qed.

Lemma translateAudio_answered_closed b m a answers (w : World) :
  exists l,
    translateAudio_answered b m a answers w
    = (inr tt,
       with_transcriptions
         (written b (final_text "Could not translate audio."
                       (outcome (answers (decisive answers)))) (transcriptions w))
         (with_log (log w ++ l) w))
    /\ requests l = replicate (decisive answers) (audio_request a m).
Proof.
  unfold translateAudio_answered, try_catch, mbind, M_bind.
  rewrite generate_loop_answered_decided.
  destruct (outcome (answers (decisive answers))) as [e|res] eqn:Ho;
    cbn -[resolve written final_text or_else errorMessage].
  - eexists (_ ++ [_]). unfold emit, setTranscriptions, modify.
    cbn -[resolve written final_text or_else errorMessage].
    rewrite <- app_assoc, resolve_written, (final_text_err e "Could not translate audio.").
    split; [reflexivity|].
    rewrite requests_app, requests_trace_after by apply decisive_le.
    by rewrite app_nil_r.
  - eexists. unfold setTranscriptions, modify.
    cbn -[resolve written final_text or_else errorMessage].
    rewrite final_text_ok, resolve_written. split; [reflexivity|].
    by rewrite requests_trace_after by apply decisive_le.
Qed.

Lemma toggleVoice_stops key (w : World) r rec :
  recorderState w = RECORDING -> mediaRecorderRef w = Some r ->
  recorders w !! r = Some rec -> mr_state rec = recording ->
  run (toggleVoice key) w
  = with_recorderState PROCESSING
      (with_tasks (tasks w ++ [RecorderStop r])
         (with_log (log w ++ [RecorderStopped r])
            (with_recorders
               (<[r := mkRecorder inactive (mr_stream rec) (mr_mimeType rec)]>
                  (recorders w)) w))).
Proof.
  intros Hs Href Hrec Hst.
  unfold run, toggleVoice, stopRecording, stop_recorder, set_recorder_state, emit,
    suspend, setRecorderState, modify, gets, mbind, M_bind. simpl.
  rewrite Hs. simpl. rewrite Href, Hrec. simpl. rewrite Hst. simpl. by rewrite Hrec.
Qed.

(** X9. An audio cycle with the key present, from the tap that stops an
    active recorder to the end of [handleRecordingStop], whatever the remote
    answers: every remote call of the cycle carries the audio the file
    reader produced, declared with the format the recorder was created
    with; the transcript is the old one with the placeholder appended, and
    the text of every item under the placeholder's id is the translation,
    the fallback ["Could not translate audio."] or one of the two error
    messages; the state is back to [IDLE] and no callback of the cycle is
    left; the refs are empty and the volume is 0, every track of the stream
    that was held has ended and the audio context that was held is
    closed. *)
Theorem audio_flow_end_to_end
    key (w : World) r rec data base64Audio now date answers :
  truthy key = true ->
  recorderState w = RECORDING -> mediaRecorderRef w = Some r ->
  recorders w !! r = Some rec -> mr_state rec = recording ->
  exists w',
    steps key [TapMic;
               Settle (length (tasks w)) (RecorderStopAnswer data);
               Settle (length (tasks w)) (Base64Answer (Fulfilled base64Audio) now date);
               Settle (length (tasks w)) (RemoteAnswer answers)] w = Some w'
    /\ requests (log w')
       = requests (log w)
         ++ replicate (S (decisive answers)) (audio_request base64Audio (mr_mimeType rec))
    /\ transcriptions w'
       = written (pretty now)
           (final_text "Could not translate audio." (outcome (answers (decisive answers))))
           (transcriptions w ++ [mkItem (pretty now) "Translating..." false date])
    /\ recorderState w' = IDLE
    /\ tasks w' = tasks w
    /\ streamRef w' = None /\ audioContextRef w' = None /\ volume w' = 0%Q
    /\ (forall h st,
          streamRef w = Some h -> streams w !! h = Some st ->
          exists st', streams w' !! h = Some st' /\ active_tracks st' = 0%nat)
    /\ (forall c,
          audioContextRef w = Some c -> (c < length (contexts w))%nat ->
          contexts w' !! c = Some closed).
Proof.
  intros Hk Hs Href Hrec Hst.
  rewrite steps_cons, step_tap, (toggleVoice_stops key w r rec Hs Href Hrec Hst).
  rewrite option_bind_Some. cbv beta. rewrite steps_cons.
  (* the stop event *)
  match goal with |- context [step key _ ?x] => set (w1 := x) end.
  rewrite (step_settle_last key w1 (tasks w) (RecorderStop r)
             (RecorderStopAnswer data) (recorder_onstop r data) eq_refl eq_refl).
  rewrite option_bind_Some. cbv beta. rewrite steps_cons.
  destruct (recorder_onstop_spec r data (with_tasks (tasks w) w1)
              (mkRecorder inactive (mr_stream rec) (mr_mimeType rec)))
    as [chunks Hw2].
  { simpl. apply list_lookup_insert_eq. by eapply lookup_lt_Some. }
  rewrite Hw2. clear Hw2. simpl mr_mimeType.
  (* the encoded audio *)
  match goal with |- context [step key _ ?x] => set (w2 := x) end.
  rewrite (step_settle_last key w2 (tasks w) (AwaitBase64 _ _)
             (Base64Answer (Fulfilled base64Audio) now date)
             (handleRecordingStop_encoded key (mr_mimeType rec) (Fulfilled base64Audio)
                now date) eq_refl eq_refl).
  rewrite option_bind_Some. cbv beta. rewrite steps_cons.
  destruct (handleRecordingStop_encoded_spec key (mr_mimeType rec) (Fulfilled base64Audio)
              now date (with_tasks (tasks w) w2))
    as [(b & [= <-] & _ & Hw3)|(w0 & w1' & Hw0 & _)].
  2:{ destruct Hw0 as [(e & [=] & _)|(_ & Hk' & _)]. congruence. }
  unfold run at 1. rewrite Hw3. clear Hw3. cbn [snd].
  (* the settled translate call *)
  match goal with |- context [step key _ ?x] => set (w3 := x) end.
  rewrite (step_settle_last key w3 (tasks w) (AwaitTranslateAudio _ _ _)
             (RemoteAnswer answers)
             (handleRecordingStop_answered (pretty now) (mr_mimeType rec) base64Audio answers)
             eq_refl eq_refl).
  rewrite option_bind_Some. cbv beta. simpl steps.
  eexists. split; [reflexivity|].
  unfold run, handleRecordingStop_answered, resume_try, mbind, M_bind.
  destruct (translateAudio_answered_closed (pretty now) (mr_mimeType rec) base64Audio
              answers (with_tasks (tasks w) w3)) as (l & Hres & Hl).
  rewrite Hres. cbn [mret M_ret].
  match goal with |- context [handleRecordingStop_finally ?x] => set (w4 := x) end.
  pose proof (handleRecordingStop_finally_requests w4) as Hreq.
  destruct (handleRecordingStop_finally_spec w4) as (w5 & w' & _ & Hrel & Hf & ->).
  rewrite Hf in Hreq |- *. cbn [snd] in Hreq |- *.
  split.
  { rewrite Hreq. subst w4 w3 w2 w1. simpl.
    rewrite !requests_app, Hl. simpl. rewrite app_nil_r.
    by rewrite <- app_assoc. }
  simpl. destruct Hrel as [_ Htr Htk _ _ Hsr Hcr Hv Htracks Hctx]. rewrite Htr, Htk.
  split; [done|]. split; [done|]. split; [done|]. split; [done|]. split; [done|].
  split; [done|]. split.
  - intros h st Hh Hstr. by apply (Htracks h st).
  - intros c Hc Hlt. by apply Hctx.
Qed.

Lemma audio_flow_end_to_end_witness :
  exists w',
    steps (Some "key")
      [TapMic; Settle 1 (RecorderStopAnswer "abc");
       Settle 1 (Base64Answer (Fulfilled "YWJj") 5000 5000);
       Settle 1 (RemoteAnswer third_time_lucky)] recording_world = Some w'
    /\ requests (log w') = replicate 3 (audio_request "YWJj" "audio/webm")
    /\ transcriptions w' = [mkItem (pretty 5000) "Hello" false 5000]
    /\ recorderState w' = IDLE
    /\ tasks w' = tasks recording_world
    /\ streamRef w' = None /\ audioContextRef w' = None /\ volume w' = 0%Q
    /\ (exists st', streams w' !! 0%nat = Some st' /\ active_tracks st' = 0%nat)
    /\ contexts w' !! 0%nat = Some closed.
Proof.
  destruct (audio_flow_end_to_end (Some "key") recording_world 0
              (mkRecorder recording 0 "audio/webm") "abc" "YWJj" 5000 5000
              third_time_lucky eq_refl eq_refl eq_refl eq_refl eq_refl)
    as (w' & Hsteps & Hreq & Htr & Hs & Ht & Hsr & Hcr & Hv & Htracks & Hctx).
  exists w'. split; [exact Hsteps|]. split; [exact Hreq|]. split; [exact Htr|].
  split; [exact Hs|]. split; [exact Ht|]. split; [exact Hsr|]. split; [exact Hcr|].
  split; [exact Hv|]. split.
  - apply (Htracks 0%nat [live]); reflexivity.
  - apply Hctx; [reflexivity|simpl; lia].
Defined.

(** ** A recording carries its own audio *)

Lemma startRecording_resume_success env (w : World) :
  setup_ok env = true ->
  let w1 := run (startRecording_resume env) w in
  recorderState w1 = RECORDING
  /\ mediaRecorderRef w1 = Some (length (recorders w))
  /\ recorders w1 !! length (recorders w)
     = Some (mkRecorder recording (length (streams w)) (preferred_mimeType env))
  /\ audioChunksRef w1 = [].
Proof.
  cbv zeta. unfold setup_ok, preferred_mimeType, run.
  unfold startRecording_resume, try_catch, updateVolume, start_recorder,
    set_recorder_state, new_stream, new_context, new_recorder, may_throw, await,
    throw, emit, suspend, setRecorderState, setVolume, modify, gets,
    mbind, M_bind, mret, M_ret.
  destruct (userMedia env) as [n|e]; [|done]. cbn -[getByteFrequencyData sum_list_Z].
  destruct (context_error env); [done|]. cbn -[getByteFrequencyData sum_list_Z].
  destruct (graph_error env); [done|]. cbn -[getByteFrequencyData sum_list_Z].
  destruct (recorder_error env); [done|].
  destruct (start_error env); [done|]. intros _.
  destruct (negb _); cbn -[getByteFrequencyData sum_list_Z];
    rewrite !lookup_app_r, !Nat.sub_diag by done; cbn -[getByteFrequencyData sum_list_Z];
    (repeat split; try done).
  all: apply list_lookup_insert_eq; rewrite length_app; simpl; lia.
Qed.

Lemma append_empty (s : string) : s +:+ "" = s.
Proof.
  induction s as [|c s IH]; [done|].
  change (String c (s +:+ "") = String c s). by rewrite IH.
Qed.

Lemma recorder_onstop_blob r data (w : World) rec :
  recorders w !! r = Some rec -> audioChunksRef w = [] ->
  run (recorder_onstop r data) w
  = with_tasks (tasks w ++ [AwaitBase64 (mr_mimeType rec) data])
      (with_audioChunksRef (if (0 <? String.length data)%nat then [data] else []) w).
Proof.
  intros Hrec Hch.
  unfold run, recorder_onstop, ondataavailable, handleRecordingStop, gets, suspend,
    modify, mbind, M_bind. simpl. rewrite Hrec.
  destruct (0 <? String.length data)%nat eqn:Hd; simpl.
  - rewrite Hch. simpl. by rewrite append_empty.
  - rewrite Hch. simpl. destruct data; [|done].
    rewrite <- Hch. by destruct w.
Qed.

(** X21. A recording carries its own audio and nothing else: whatever
    chunks an earlier recording left in [audioChunksRef], after a capture
    setup that succeeded, the tap that stops the recorder and its [stop]
    event hand to the encoder exactly the data of this recording, declared
    with the format the recorder was created with, and the state is
    [PROCESSING] from the tap on. *)
Theorem recording_carries_its_own_audio key env data (w : World) :
  setup_ok env = true ->
  let w1 := run (startRecording_resume env) w in
  exists w3,
    steps key [TapMic; Settle (length (tasks w1)) (RecorderStopAnswer data)] w1
    = Some w3
    /\ tasks w3 = tasks w1 ++ [AwaitBase64 (preferred_mimeType env) data]
    /\ audioChunksRef w3 = (if (0 <? String.length data)%nat then [data] else [])
    /\ recorderState w3 = PROCESSING.
Proof.
  intros Hok. cbv zeta.
  destruct (startRecording_resume_success env w Hok) as (Hs & Href & Hrec & Hch).
  cbv zeta in Hs, Href, Hrec, Hch.
  set (w1 := run (startRecording_resume env) w) in *.
  set (r := length (recorders w)) in *.
  rewrite steps_cons, step_tap.
  rewrite (toggleVoice_stops key w1 r _ Hs Href Hrec eq_refl).
  rewrite option_bind_Some. cbv beta. rewrite steps_cons.
  match goal with |- context [step key _ ?x] => set (w2 := x) end.
  rewrite (step_settle_last key w2 (tasks w1) (RecorderStop r)
             (RecorderStopAnswer data) (recorder_onstop r data) eq_refl eq_refl).
  rewrite option_bind_Some. cbv beta.
  rewrite (recorder_onstop_blob r data (with_tasks (tasks w1) w2)
             (mkRecorder inactive (length (streams w)) (preferred_mimeType env))).
  - eexists. split; [reflexivity|]. by repeat split.
  - simpl. apply list_lookup_insert_eq. by eapply lookup_lt_Some.
  - exact Hch.
Qed.

Lemma recording_carries_its_own_audio_witness :
  exists w3,
    steps (Some "key")
      [TapMic;
       Settle (length (tasks (run (startRecording_resume granted)
                                (with_audioChunksRef ["old"] initial))))
         (RecorderStopAnswer "abc")]
      (run (startRecording_resume granted) (with_audioChunksRef ["old"] initial))
    = Some w3
    /\ tasks w3
       = tasks (run (startRecording_resume granted)
                  (with_audioChunksRef ["old"] initial))
         ++ [AwaitBase64 (preferred_mimeType granted) "abc"]
    /\ audioChunksRef w3 = ["abc"]
    /\ recorderState w3 = PROCESSING.
Proof.
  apply (recording_carries_its_own_audio (Some "key") granted "abc"
           (with_audioChunksRef ["old"] initial)).
  reflexivity.
Defined.

(** ** The volume *)

Section Keeps.
Context (P : World -> Prop).

Lemma keeps_ret {A} (a : A) : keeps P (mret a).
Proof. by intros w. Qed.

Lemma keeps_throw {A} (e : JsError) : keeps P (@throw A e).
Proof. by intros w. Qed.

Lemma keeps_gets {A} (g : World -> A) : keeps P (gets g).
Proof. by intros w. Qed.

Lemma keeps_bind {A C} (m : M A) (k : A -> M C) :
  keeps P m -> (forall a, keeps P (k a)) -> keeps P (m ≫= k).
Proof.
  intros Hm Hk w Hw. unfold mbind, M_bind. specialize (Hm w Hw).
  destruct (m w) as [[e|a] w1]; simpl in *; [done|].
  by apply Hk.
Qed.

Lemma keeps_try_catch {A} (m : M A) (h : JsError -> M A) :
  keeps P m -> (forall e, keeps P (h e)) -> keeps P (try_catch m h).
Proof.
  intros Hm Hh w Hw. unfold try_catch. specialize (Hm w Hw).
  destruct (m w) as [[e|a] w1]; simpl in *; [|done].
  by apply Hh.
Qed.

Lemma keeps_modify (g : World -> World) :
  (forall w, P w -> P (g w)) -> keeps P (modify g).
Proof. intros Hg w. apply Hg. Qed.

Lemma keeps_try_finally {A} (m : M A) (f : M unit) :
  keeps P m -> keeps P f -> keeps P (try_finally m f).
Proof.
  intros Hm Hf w Hw. unfold try_finally. specialize (Hm w Hw).
  destruct (m w) as [r w1]. simpl in Hm. specialize (Hf w1 Hm).
  by destruct (f w1) as [[e|[]] w2].
Qed.

Lemma keeps_resume_try (body : M Progress) (h : JsError -> M unit) (f : M unit) :
  keeps P body -> (forall e, keeps P (h e)) -> keeps P f ->
  keeps P (resume_try body h f).
Proof.
  intros Hb Hh Hf w Hw. unfold resume_try. specialize (Hb w Hw).
  destruct (body w) as [[e|[|]] w1]; simpl in *.
  - by apply keeps_try_finally.
  - by apply Hf.
  - done.
Qed.
End Keeps.

Ltac keeps_step :=
  lazymatch goal with
  | |- keeps _ (mret _) => apply keeps_ret
  | |- keeps _ (throw _) => apply keeps_throw
  | |- keeps _ (gets _) => apply keeps_gets
  | |- keeps _ (_ ≫= _) => apply keeps_bind; [|intros ?]
  | |- keeps _ (try_catch _ _) => apply keeps_try_catch; [|intros ?]
  | |- keeps _ (resume_try _ _ _) => apply keeps_resume_try; [|intros ?|]
  | |- keeps _ (modify _) => apply keeps_modify; intros ? ?; try assumption
  | |- keeps _ (match ?x with _ => _ end) => destruct x
  end.

Ltac keeps_all :=
  unfold await, may_throw, emit, suspend, setRecorderState, setRecorderState_fn,
    setVolume, setTranscriptions;
  repeat keeps_step.

Lemma sum_list_Z_bounds (l : list Z) :
  Forall (fun x => 0 <= x <= 255) l ->
  0 <= sum_list_Z l <= 255 * Z.of_nat (length l).
Proof.
  induction 1 as [|x l Hx _ IH]; simpl; [lia|].
  unfold sum_list_Z in *. simpl. lia.
Qed.

Lemma byte_average_in_range sample :
  let dataArray := getByteFrequencyData sample in
  (0 <= inject_Z (sum_list_Z dataArray) / inject_Z (Z.of_nat (length dataArray)) <= 255)%Q.
Proof.
  intros dataArray.
  assert (Hlen : length dataArray = 128%nat).
  { unfold dataArray, getByteFrequencyData. by rewrite length_fmap, length_seq. }
  assert (Hb : Forall (fun x => 0 <= x <= 255) dataArray).
  { unfold dataArray, getByteFrequencyData. apply Forall_fmap, Forall_forall.
    intros i _. simpl. pose proof (Z.mod_pos_bound (sample i) 256). lia. }
  apply sum_list_Z_bounds in Hb. rewrite Hlen in *.
  generalize dependent (sum_list_Z dataArray). intros s Hs.
  unfold Qle, Qdiv, Qmult, Qinv, inject_Z. simpl. lia.
Qed.

Lemma generate_loop_keeps (P : World -> Prop) req answers n d :
  (forall l w, P w -> P (with_log l w)) ->
  keeps P (generate_loop req answers n d).
Proof.
  intros HP w Hw. destruct (generate_loop_frame req answers n d w) as [l ->].
  by apply HP.
Qed.

Lemma generate_loop_answered_keeps (P : World -> Prop) req answers :
  (forall l w, P w -> P (with_log l w)) ->
  keeps P (generate_loop_answered req answers).
Proof.
  intros HP w Hw. rewrite generate_loop_answered_decided. by apply HP.
Qed.

Lemma updateVolume_range sample : keeps volume_in_range (updateVolume sample).
Proof.
  unfold updateVolume. keeps_all. apply byte_average_in_range.
Qed.

Lemma cleanupAudio_range : keeps volume_in_range cleanupAudio.
Proof.
  unfold cleanupAudio, stop_tracks, close_context. keeps_all; try done.
  by destruct (streams _ !! _).
Qed.

Lemma startRecording_resume_range env : keeps volume_in_range (startRecording_resume env).
Proof.
  unfold startRecording_resume, start_recorder. keeps_all;
    try apply updateVolume_range; try (by intros w Hw).
  intros w Hw. unfold set_recorder_state, modify. simpl.
  by destruct (recorders w !! _).
Qed.

Lemma step_range key e (w w' : World) :
  step key e w = Some w' -> volume_in_range w -> volume_in_range w'.
Proof.
  intros Hstep Hw. destruct e as [|t n1 d1 n2 d2|i a| |]; simpl in Hstep.
  - injection Hstep as <-. revert w Hw.
    change (keeps volume_in_range (toggleVoice key)).
    unfold toggleVoice, stopRecording, startRecording, stop_recorder. keeps_all.
    intros w Hw. unfold set_recorder_state, modify. simpl.
    by destruct (recorders w !! _).
  - injection Hstep as <-. revert w Hw.
    change (keeps volume_in_range (handleSend key t n1 d1 n2 d2)).
    unfold handleSend, translateText. keeps_all.
  - destruct (tasks w !! i) as [p|] eqn:Hi; [|done]. simpl in Hstep.
    set (w0 := with_tasks (delete i (tasks w)) w) in *.
    assert (Hw0 : volume_in_range w0) by done. clearbody w0.
    destruct p, a; simpl in Hstep; try done; injection Hstep as <-; revert w0 Hw0.
    + exact (startRecording_resume_range env).
    + exact (updateVolume_range sample).
    + change (keeps volume_in_range (recorder_onstop r data)).
      unfold recorder_onstop, ondataavailable, handleRecordingStop. keeps_all.
    + change (keeps volume_in_range
                (handleRecordingStop_encoded key mimeType base64 now date)).
      unfold handleRecordingStop_encoded, handleRecordingStop_catch,
        handleRecordingStop_finally, translateAudio.
      keeps_all; apply cleanupAudio_range.
    + change (keeps volume_in_range
                (handleRecordingStop_answered botMsgId mimeType base64Audio answers)).
      unfold handleRecordingStop_answered, handleRecordingStop_catch,
        handleRecordingStop_finally, translateAudio_answered.
      keeps_all; try apply cleanupAudio_range.
      by apply generate_loop_answered_keeps.
    + change (keeps volume_in_range (translateText_answered botMsgId text0 answers)).
      unfold translateText_answered. keeps_all. by apply generate_loop_answered_keeps.
  - injection Hstep as <-. done.
  - injection Hstep as <-. by apply cleanupAudio_range.
Qed.

(** X10. In every world the hook reaches, the volume is between 0 and 255:
    it is 0 at first, a byte average after every frame of the volume loop,
    and 0 again after every release. *)
Theorem volume_stays_in_range key es (w : World) :
  steps key es initial = Some w -> volume_in_range w.
Proof.
  assert (H : forall es w0 w, volume_in_range w0 -> steps key es w0 = Some w ->
                          volume_in_range w).
  { clear. intros es. induction es as [|e es IH]; intros w0 w Hw0 Hsteps.
    - simpl in Hsteps. by injection Hsteps as <-.
    - rewrite steps_cons in Hsteps.
      destruct (step key e w0) as [w1|] eqn:E; [|done].
      rewrite option_bind_Some in Hsteps.
      eapply IH; [|exact Hsteps]. by eapply step_range. }
  intros Hsteps. eapply H; [|exact Hsteps]. by vm_compute.
Qed.

Lemma volume_stays_in_range_witness :
  volume_in_range
    (default initial
       (steps (Some "key")
          [TapMic; Settle 0 (UserMediaAnswer granted);
           Settle 0 (FrameAnswer (fun _ => 255))] initial)).
Proof.
  apply (volume_stays_in_range (Some "key")
           [TapMic; Settle 0 (UserMediaAnswer granted);
            Settle 0 (FrameAnswer (fun _ => 255))]).
  by vm_compute.
Defined.



(** X12. [cleanupAudio] is idempotent: run on a world it has already
    released (the unmount cleanup after a finished cycle, say), it stops no
    track, closes no context and leaves the world exactly as it is. *)
Theorem cleanupAudio_idempotent (w : World) :
  let w1 := (cleanupAudio w).2 in
  cleanupAudio w1 = (inr tt, w1).
Proof.
  destruct (cleanupAudio_released w) as (w1 & Hc & Hrel). rewrite Hc. simpl.
  destruct Hrel as [_ _ _ _ _ Hs Hx Hv _ _].
  unfold cleanupAudio, gets, mbind, M_bind, mret, M_ret, setVolume, modify. simpl.
  rewrite Hs. simpl. rewrite Hx. simpl.
  destruct w1. simpl in *. by subst.
Qed.

(** X13. The stream that a failed capture setup leaves held is released
    when the component unmounts: after the microphone was granted and the
    recorder could not be constructed, the unmount cleanup stops every
    track of that stream, closes its audio context and resets the volume. *)
Theorem unmount_releases_after_failed_setup key env n e (w : World) :
  userMedia env = Fulfilled n -> context_error env = None ->
  graph_error env = None -> recorder_error env = Some e ->
  exists w2,
    step key Unmount (run (startRecording_resume env) w) = Some w2
    /\ (exists st, streams w2 !! length (streams w) = Some st
                   /\ active_tracks st = 0%nat)
    /\ contexts w2 !! length (contexts w) = Some closed
    /\ streamRef w2 = None /\ audioContextRef w2 = None
    /\ volume w2 = 0%Q
    /\ recorderState w2 = ERROR.
Proof.
  intros Hu Hc Hg Hr.
  destruct (recorder_failure_keeps_stream env n e w Hu Hc Hg Hr)
    as (Hstate & Hsref & Hst & Hcref & Hctx & _).
  set (w1 := run (startRecording_resume env) w) in *.
  destruct (cleanupAudio_released w1) as (w2 & Hclean & Hrel).
  exists w2. split; [simpl; unfold run; by rewrite Hclean|].
  split; [by eapply (rel_tracks _ _ Hrel)|].
  split; [eapply (rel_context _ _ Hrel); [done|by eapply lookup_lt_Some]|].
  destruct Hrel as [Hs _ _ _ _ Hsr Hcr Hv _ _]. by rewrite Hs.
Qed.

Lemma unmount_releases_after_failed_setup_witness :
  exists w2,
    step (Some "key") Unmount (run (startRecording_resume recorder_unsupported) initial)
      = Some w2
    /\ (exists st, streams w2 !! 0%nat = Some st /\ active_tracks st = 0%nat)
    /\ contexts w2 !! 0%nat = Some closed
    /\ streamRef w2 = None /\ audioContextRef w2 = None
    /\ volume w2 = 0%Q
    /\ recorderState w2 = ERROR.
Proof.
  apply (unmount_releases_after_failed_setup (Some "key") recorder_unsupported 1
           not_supported initial eq_refl eq_refl eq_refl eq_refl).
Defined.

Lemma step_settle_at key (w : World) i p a m :
  tasks w !! i = Some p -> continue key p a = Some m ->
  step key (Settle i a) w = Some (run m (with_tasks (delete i (tasks w)) w)).
Proof. intros Hi Hc. simpl. rewrite Hi. simpl. by rewrite Hc. Qed.

Lemma translateText_answered_closed b t answers (w : World) :
  exists l,
    translateText_answered b t answers w
    = (inr tt,
       with_transcriptions
         (written b (final_text "Could not translate."
                       (outcome (answers (decisive answers)))) (transcriptions w))
         (with_log (log w ++ l) w))
    /\ requests l = replicate (decisive answers) (text_request t).
Proof.
  unfold translateText_answered, try_catch, mbind, M_bind.
  rewrite generate_loop_answered_decided.
  destruct (outcome (answers (decisive answers))) as [e|res] eqn:Ho;
    cbn -[resolve written final_text or_else errorMessage].
  - eexists (_ ++ [_]). unfold emit, setTranscriptions, modify.
    cbn -[resolve written final_text or_else errorMessage].
    rewrite <- app_assoc, resolve_written, (final_text_err e "Could not translate.").
    split; [reflexivity|].
    rewrite requests_app, requests_trace_after by apply decisive_le.
    by rewrite app_nil_r.
  - eexists. unfold setTranscriptions, modify.
    cbn -[resolve written final_text or_else errorMessage].
    rewrite final_text_ok, resolve_written. split; [reflexivity|].
    by rewrite requests_trace_after by apply decisive_le.
Qed.

(** X14. [clearHistory] does not cancel a translation that is under way.
    The call that was made when the text was submitted, or the audio
    encoded, is not withdrawn, and when it has settled the loop goes on as
    it would have: it calls the remote once more for each attempt that was
    rate limited, twice at most, and not at all when the first answer
    decides.  But the placeholder is gone: nothing is written, and the
    transcript stays empty, for a text submission and for an audio cycle
    alike. *)
Theorem response_after_clear_is_dropped key (w : World) i answers :
  (forall botMsgId t,
      tasks w !! i = Some (AwaitTranslateText botMsgId t) ->
      exists w',
        steps key [ClearHistory; Settle i (RemoteAnswer answers)] w = Some w'
        /\ transcriptions w' = []
        /\ requests (log w')
           = requests (log w) ++ replicate (decisive answers) (text_request t))
  /\ (forall botMsgId mimeType base64Audio,
        tasks w !! i = Some (AwaitTranslateAudio botMsgId mimeType base64Audio) ->
        exists w',
          steps key [ClearHistory; Settle i (RemoteAnswer answers)] w = Some w'
          /\ transcriptions w' = []
          /\ requests (log w')
             = requests (log w)
               ++ replicate (decisive answers) (audio_request base64Audio mimeType)).
Proof.
  split.
  - intros b t Hi. rewrite steps_cons.
    change (step key ClearHistory w) with (Some (run clearHistory w)).
    rewrite option_bind_Some. cbv beta. rewrite steps_cons.
    rewrite (step_settle_at key (run clearHistory w) i (AwaitTranslateText b t)
               (RemoteAnswer answers) (translateText_answered b t answers) Hi eq_refl).
    rewrite option_bind_Some. cbv beta.
    match goal with |- context [run (translateText_answered b t answers) ?x] =>
      set (w0 := x) end.
    destruct (translateText_answered_closed b t answers w0) as (l & Hres & Hl).
    eexists. split; [reflexivity|]. unfold run. rewrite Hres. simpl.
    split; [done|]. by rewrite requests_app, Hl.
  - intros b m a Hi. rewrite steps_cons.
    change (step key ClearHistory w) with (Some (run clearHistory w)).
    rewrite option_bind_Some. cbv beta. rewrite steps_cons.
    rewrite (step_settle_at key (run clearHistory w) i (AwaitTranslateAudio b m a)
               (RemoteAnswer answers) (handleRecordingStop_answered b m a answers)
               Hi eq_refl).
    rewrite option_bind_Some. cbv beta.
    match goal with |- context [run (handleRecordingStop_answered b m a answers) ?x] =>
      set (w0 := x) end.
    eexists. split; [reflexivity|].
    unfold run, handleRecordingStop_answered, resume_try, mbind, M_bind.
    destruct (translateAudio_answered_closed b m a answers w0) as (l & Hres & Hl).
    rewrite Hres. cbn [mret M_ret].
    match goal with |- context [handleRecordingStop_finally ?x] => set (w4 := x) end.
    pose proof (handleRecordingStop_finally_requests w4) as Hreq.
    destruct (handleRecordingStop_finally_spec w4) as (w5 & w' & _ & Hrel & Hf & ->).
    rewrite Hf in Hreq |- *. cbn [snd] in Hreq |- *. split.
    + simpl. by rewrite (rel_transcriptions _ _ Hrel).
    + rewrite Hreq. subst w4 w0. simpl. by rewrite requests_app, Hl.
Qed.

Lemma response_after_clear_is_dropped_witness :
  requests (log (run (handleSend (Some "key") "nomoskar" 1000 1000 1000 1000) initial))
  = [text_request "nomoskar"]
  /\ exists w',
      steps (Some "key") [ClearHistory; Settle 0 (RemoteAnswer third_time_lucky)]
        (run (handleSend (Some "key") "nomoskar" 1000 1000 1000 1000) initial)
      = Some w'
      /\ transcriptions w' = []
      /\ requests (log w')
         = requests (log (run (handleSend (Some "key") "nomoskar" 1000 1000 1000 1000)
                            initial))
           ++ replicate (decisive third_time_lucky) (text_request "nomoskar").
Proof.
  split; [reflexivity|].
  apply (proj1 (response_after_clear_is_dropped (Some "key")
                  (run (handleSend (Some "key") "nomoskar" 1000 1000 1000 1000) initial)
                  0 third_time_lucky) (pretty (1000 + 1)) "nomoskar").
  reflexivity.
Defined.

(** ** Base64: [encode] and [decode] of audioUtils *)

Import audioUtils.

Lemma list_ind3 {A} (P : list A -> Prop) :
  P [] -> (forall a, P [a]) -> (forall a b, P [a; b]) ->
  (forall a b c r, P r -> P (a :: b :: c :: r)) ->
  forall l, P l.
Proof.
  intros H0 H1 H2 H3 l.
  assert (H : P l /\ (forall a, P (a :: l)) /\ (forall a b, P (a :: b :: l))).
  { induction l as [|x l (IH0 & IH1 & IH2)]; [by auto|].
    split; [apply IH1|]. split; [intros a; apply IH2|].
    intros a b. by apply H3. }
  apply H.
Qed.

Lemma alphabet_chars (n : Z) :
  0 <= n < 64 ->
  b64_index (b64_char n) = Some n
  /\ Ascii.eqb (b64_char n) "=" = false
  /\ ascii_whitespace (b64_char n) = false.
Proof.
  intros Hn.
  assert (H : forallb good_char (Z.of_nat <$> seq 0 64) = true) by by vm_compute.
  rewrite forallb_forall in H.
  specialize (H n). unfold good_char in H.
  rewrite !andb_true_iff, !negb_true_iff, bool_decide_eq_true in H.
  assert (Hin : In n (Z.of_nat <$> seq 0 64)).
  { apply list_elem_of_In, list_elem_of_fmap. exists (Z.to_nat n).
    split; [lia|]. apply elem_of_seq. lia. }
  destruct (H Hin) as [[? ?] ?]. done.
Qed.

Lemma charCodeAt_fromCharCode (b : Z) : uint8 b -> charCodeAt (fromCharCode b) = b.
Proof.
  intros Hb. unfold charCodeAt, fromCharCode, uint8 in *.
  rewrite N_ascii_embedding by lia. lia.
Qed.

Lemma fromCharCode_charCodeAt (c : ascii) : fromCharCode (charCodeAt c) = c.
Proof.
  unfold charCodeAt, fromCharCode. rewrite N2Z.id. apply ascii_N_embedding.
Qed.

Lemma charCodeAt_uint8 (c : ascii) : uint8 (charCodeAt c).
Proof.
  unfold charCodeAt, uint8. pose proof (N_ascii_bounded c). lia.
Qed.

Lemma sextets_range (l : list Z) :
  Forall uint8 l -> Forall (fun s => 0 <= s < 64) (sextets l).
Proof.
  unfold uint8. induction l as [|a|a b|a b c r IH] using list_ind3; intros H.
  - constructor.
  - apply Forall_cons_1 in H as [Ha _]. simpl.
    repeat constructor; Z.to_euclidean_division_equations; lia.
  - apply Forall_cons_1 in H as [Ha H]. apply Forall_cons_1 in H as [Hb _]. simpl.
    repeat constructor; Z.to_euclidean_division_equations; lia.
  - apply Forall_cons_1 in H as [Ha H]. apply Forall_cons_1 in H as [Hb H].
    apply Forall_cons_1 in H as [Hc H]. simpl.
    repeat (constructor; [Z.to_euclidean_division_equations; lia|]).
    by apply IH.
Qed.

Lemma octets_sextets (l : list Z) : Forall uint8 l -> octets (sextets l) = l.
Proof.
  unfold uint8. induction l as [|a|a b|a b c r IH] using list_ind3; intros H.
  - done.
  - apply Forall_cons_1 in H as [Ha _]. simpl. f_equal.
    Z.to_euclidean_division_equations; lia.
  - apply Forall_cons_1 in H as [Ha H]. apply Forall_cons_1 in H as [Hb _]. simpl.
    f_equal; [|f_equal]; Z.to_euclidean_division_equations; lia.
  - apply Forall_cons_1 in H as [Ha H]. apply Forall_cons_1 in H as [Hb H].
    apply Forall_cons_1 in H as [Hc H]. simpl.
    rewrite (IH H).
    f_equal; [|f_equal; [|f_equal]]; Z.to_euclidean_division_equations; lia.
Qed.

Lemma sextets_length (l : list Z) :
  ((length (sextets l) + (3 - length l mod 3) mod 3) mod 4 = 0
   /\ length (sextets l) mod 4 <> 1
   /\ (3 - length l mod 3) mod 3 <= 2)%nat.
Proof.
  induction l as [|a|a b|a b c r IH] using list_ind3;
    cbn [sextets length]; zify; Z.to_euclidean_division_equations; lia.
Qed.

Lemma strip_padding_app (cs : list ascii) (k : nat) :
  Forall (fun c => Ascii.eqb c "=" = false) cs -> (k <= 2)%nat ->
  strip_padding (cs ++ replicate k "="%char) = cs.
Proof.
  intros Hcs Hk. unfold strip_padding.
  assert (Hhead : forall c r, reverse cs = c :: r -> Ascii.eqb c "=" = false).
  { intros c r Hr. rewrite Forall_forall in Hcs. apply Hcs.
    apply elem_of_reverse. rewrite Hr. left. }
  destruct k as [|[|[|k]]]; [| | |lia]; simpl replicate.
  - rewrite app_nil_r. destruct (reverse cs) as [|c r] eqn:Hr; [done|].
    by rewrite (Hhead c r eq_refl).
  - rewrite reverse_app. simpl.
    destruct (reverse cs) as [|c r] eqn:Hr.
    + change (reverse [] = cs). rewrite <- (reverse_involutive cs), Hr. done.
    + rewrite (Hhead c r eq_refl). rewrite <- Hr. apply reverse_involutive.
  - rewrite reverse_app. simpl. apply reverse_involutive.
Qed.

Lemma b64_index_chars (sx : list Z) :
  Forall (fun s => 0 <= s < 64) sx -> mapM b64_index (b64_char <$> sx) = Some sx.
Proof.
  intros H. apply mapM_Some.
  induction H as [|s sx Hs _ IH]; simpl; constructor; [|done].
  by apply alphabet_chars.
Qed.

Lemma no_whitespace (sx : list Z) (k : nat) :
  Forall (fun s => 0 <= s < 64) sx ->
  filter (fun c => ascii_whitespace c = false)
    ((b64_char <$> sx) ++ replicate k "="%char)
  = (b64_char <$> sx) ++ replicate k "="%char.
Proof.
  intros H. rewrite filter_app. f_equal.
  - induction H as [|s sx Hs _ IH]; [done|]. rewrite fmap_cons.
    rewrite filter_cons_True by by apply alphabet_chars. by rewrite IH.
  - induction k as [|k IH]; [done|]. simpl replicate.
    rewrite filter_cons_True by done. by rewrite IH.
Qed.

Lemma atob_btoa (s : string) : atob (btoa s) = Some s.
Proof.
  unfold atob, btoa.
  set (bytes := charCodeAt <$> list_ascii_of_string s).
  assert (Hb : Forall uint8 bytes).
  { apply Forall_fmap, Forall_true. intros c. apply charCodeAt_uint8. }
  pose proof (sextets_range bytes Hb) as Hs.
  destruct (sextets_length bytes) as (H0 & H1 & H2).
  rewrite list_ascii_of_string_of_list_ascii.
  rewrite no_whitespace by done.
  cbv zeta.
  replace (length ((b64_char <$> sextets bytes)
             ++ replicate ((3 - length bytes mod 3) mod 3) "="%char) mod 4 =? 0)%nat
    with true.
  2:{ symmetry. apply Nat.eqb_eq.
      by rewrite length_app, length_fmap, length_replicate. }
  rewrite strip_padding_app; [| |done].
  2:{ apply Forall_fmap. eapply Forall_impl; [exact Hs|].
      intros x Hx. by apply alphabet_chars. }
  rewrite length_fmap.
  destruct (Nat.eqb_spec (length (sextets bytes) mod 4) 1) as [E|_]; [done|].
  rewrite b64_index_chars by done. simpl.
  rewrite octets_sextets by done. unfold bytes.
  rewrite <- list_fmap_compose.
  rewrite <- (string_of_list_ascii_of_string s) at 2. do 2 f_equal.
  generalize (list_ascii_of_string s). clear. intros l.
  induction l as [|c l IH]; [done|].
  rewrite fmap_cons, IH. f_equal. apply fromCharCode_charCodeAt.
Qed.

Lemma decode_of_encode (bytes : list Z) :
  Forall uint8 bytes -> decode (encode bytes) = Some bytes.
Proof.
  intros Hb. unfold decode, encode. rewrite atob_btoa. simpl.
  rewrite list_ascii_of_string_of_list_ascii, <- list_fmap_compose.
  f_equal. clear -Hb. induction Hb as [|b l Hb _ IH]; [done|].
  rewrite fmap_cons, IH. f_equal. by apply charCodeAt_fromCharCode.
Qed.

(** X15. Round trip of the byte encoders: [decode] gives back the bytes that
    [encode] was given, for every byte array, of any length (with two, one
    or no padding character in between). *)
Theorem decode_encode (bytes : list Z) :
  Forall uint8 bytes -> decode (encode bytes) = Some bytes.
Proof.
  intros Hb. unfold decode, encode. rewrite atob_btoa.
  rewrite option_bind_Some, list_ascii_of_string_of_list_ascii.
  rewrite <- list_fmap_compose. f_equal.
  induction Hb as [|b l Hb _ IH]; [done|].
  rewrite fmap_cons, IH. f_equal. by apply charCodeAt_fromCharCode.
Qed.

Lemma decode_encode_witness :
  Forall uint8 [0; 255; 128; 7]
  /\ decode (encode [0; 255; 128; 7]) = Some [0; 255; 128; 7].
Proof.
  assert (H : Forall uint8 [0; 255; 128; 7]).
  { repeat constructor; unfold uint8; lia. }
  split; [exact H|]. exact (decode_encode _ H).
Defined.

(** ** [blobToBase64] *)

Lemma split_without (sep : ascii) (s : string) :
  without sep s -> split sep s = [s].
Proof.
  unfold without. induction s as [|c s IH]; [done|]. simpl. intros H.
  apply Forall_cons_1 in H as [Hc H]. rewrite Hc, (IH H). done.
Qed.

Lemma split_app (sep : ascii) (s1 s2 : string) :
  without sep s1 ->
  split sep (s1 ++ String sep s2) = s1 :: split sep s2.
Proof.
  unfold without. induction s1 as [|c s1 IH]; simpl; intros H.
  - by rewrite Ascii.eqb_refl.
  - apply Forall_cons_1 in H as [Hc H]. by rewrite Hc, (IH H).
Qed.

Lemma append_assoc (s1 s2 s3 : string) : s1 +:+ s2 +:+ s3 = (s1 +:+ s2) +:+ s3.
Proof.
  induction s1 as [|c s1 IH]; [done|].
  change (String c (s1 +:+ s2 +:+ s3) = String c ((s1 +:+ s2) +:+ s3)).
  by rewrite IH.
Qed.

Lemma without_app (c : ascii) (s1 s2 : string) :
  without c s1 -> without c s2 -> without c (s1 ++ s2).
Proof.
  unfold without. induction s1 as [|c1 s1 IH]; simpl; [done|]. intros H1 H2.
  apply Forall_cons_1 in H1 as [Hc H1]. constructor; [done|]. by apply IH.
Qed.

Lemma encode_without_comma (bytes : list Z) :
  Forall uint8 bytes -> without "," (encode bytes).
Proof.
  intros Hb. unfold without, encode, btoa.
  rewrite !list_ascii_of_string_of_list_ascii.
  apply Forall_app. split.
  - apply Forall_fmap.
    eapply Forall_impl; [apply sextets_range|].
    + rewrite <- list_fmap_compose. clear -Hb.
      induction Hb as [|b l Hb _ IH]; constructor; [|done].
      simpl. by rewrite charCodeAt_fromCharCode.
    + intros x Hx. simpl in *.
      assert (H : forallb (fun n => negb (Ascii.eqb (b64_char n) ","))
                    (Z.of_nat <$> seq 0 64) = true) by by vm_compute.
      rewrite forallb_forall in H. apply negb_true_iff, H.
      apply list_elem_of_In, list_elem_of_fmap. exists (Z.to_nat x).
      split; [lia|]. apply elem_of_seq. lia.
  - by apply Forall_replicate.
Qed.

(** X16. The prefix of the data URL is removed rightly: when the reader
    loads a blob whose type holds no comma, [blobToBase64] resolves with the
    base64 payload of the data URL, and [decode] of what it resolves with
    gives the bytes of the blob. *)
Theorem blobToBase64_payload (type : string) (bytes : list Z) :
  without "," type -> Forall uint8 bytes ->
  exists base64String,
    blobToBase64 [loadend (StringResult (readAsDataURL type bytes))]
    = Some (Fulfilled (Some base64String))
    /\ base64String = encode bytes
    /\ decode base64String = Some bytes.
Proof.
  intros Ht Hb. exists (encode bytes). split; [|split; [done|]].
  - unfold blobToBase64, readAsDataURL.
    rewrite fmap_cons. cbn [head handler]. do 2 f_equal.
    set (t := if String.eqb type "" then "application/octet-stream" else type).
    assert (Hw : without "," ("data:" +:+ t +:+ ";base64")).
    { apply (without_app _ "data:"); [by repeat constructor|].
      apply without_app; [|by repeat constructor].
      unfold t. destruct (String.eqb type ""); [by repeat constructor|done]. }
    transitivity
      (split "," (("data:" +:+ t +:+ ";base64") +:+ String "," (encode bytes)) !! 1%nat).
    { do 2 f_equal. rewrite <- !append_assoc. reflexivity. }
    rewrite split_app by done.
    by rewrite (split_without _ _ (encode_without_comma bytes Hb)).
  - by apply decode_of_encode.
Qed.

Lemma blobToBase64_payload_witness :
  without "," "audio/webm" /\ Forall uint8 [82; 73; 70; 70]
  /\ exists base64String,
      blobToBase64 [loadend (StringResult (readAsDataURL "audio/webm" [82; 73; 70; 70]))]
      = Some (Fulfilled (Some base64String))
      /\ base64String = encode [82; 73; 70; 70]
      /\ decode base64String = Some [82; 73; 70; 70].
Proof.
  assert (H1 : without "," "audio/webm") by (by repeat constructor).
  assert (H2 : Forall uint8 [82; 73; 70; 70]).
  { repeat constructor; unfold uint8; lia. }
  split; [exact H1|]. split; [exact H2|]. exact (blobToBase64_payload _ _ H1 H2).
Defined.

(** ** PCM samples: [createPcmBlob] and [decodeAudioData] *)

Lemma for_loop_length {A} (f : nat -> A) (n : nat) (l : list A) :
  length (for_loop n (fun i l => <[i := f i]> l) l) = length l.
Proof. induction n as [|n IH]; [done|]. simpl. by rewrite length_insert. Qed.

Lemma for_loop_lookup {A} (f : nat -> A) (n : nat) (l : list A) (j : nat) :
  (j < n)%nat -> (j < length l)%nat ->
  for_loop n (fun i l => <[i := f i]> l) l !! j = Some (f j).
Proof.
  induction n as [|n IH]; [lia|]. intros Hn Hl. simpl.
  destruct (decide (j = n)) as [->|Hne].
  - apply list_lookup_insert_eq. by rewrite for_loop_length.
  - rewrite list_lookup_insert_ne by done. apply IH; lia.
Qed.

Section Channels.
Variables (dataInt16 : list Z) (numChannels count : nat) (rate : Q).

Lemma channel_loop (k : nat) (chans : list (list Number)) :
  (k <= length chans)%nat ->
  exists chans',
    for_loop_throwing k (channel_body dataInt16 numChannels count) (mkBuffer rate chans)
    = inr (mkBuffer rate chans')
    /\ length chans' = length chans
    /\ (forall c, (c < k)%nat ->
          chans' !! c = fill dataInt16 numChannels count c <$> chans !! c)
    /\ (forall c, (k <= c)%nat -> chans' !! c = chans !! c).
Proof.
  induction k as [|k IH]; intros Hk.
  - exists chans. split; [done|]. split; [done|]. split; [lia|done].
  - destruct IH as (chans1 & Hrun & Hlen & Hlt & Hge); [lia|].
    simpl. rewrite Hrun. unfold channel_body at 1. simpl.
    destruct (lookup_lt_is_Some_2 chans k) as [cd Hcd]; [lia|].
    rewrite (Hge k), Hcd by lia.
    eexists. split; [reflexivity|]. split; [by rewrite length_insert|]. split.
    + intros c Hc. destruct (decide (c = k)) as [->|Hne].
      * rewrite list_lookup_insert_eq by lia. by rewrite Hcd.
      * rewrite list_lookup_insert_ne by done. apply Hlt. lia.
    + intros c Hc. rewrite list_lookup_insert_ne by lia. apply Hge. lia.
Qed.

End Channels.

Lemma trunc_div (a : Z) (p : positive) :
  0 <= a -> trunc (inject_Z a / inject_Z (Zpos p)) = a / Zpos p.
Proof.
  intros Ha. unfold trunc, Qdiv, Qmult, Qinv, inject_Z. simpl.
  rewrite Z.mul_1_r. apply Z.quot_div_nonneg; lia.
Qed.

Lemma ceiling_div (a : Z) (p : positive) :
  0 <= a -> a / Zpos p <= Qceiling (inject_Z a / inject_Z (Zpos p)).
Proof.
  intros Ha. unfold Qceiling, Qfloor, Qopp, Qdiv, Qmult, Qinv, inject_Z. simpl.
  rewrite Z.mul_1_r.
  pose proof (Z.div_mod a (Zpos p) ltac:(lia)) as H1.
  pose proof (Z.mod_pos_bound a (Zpos p) ltac:(lia)) as H2.
  pose proof (Z.div_mod (- a) (Zpos p) ltac:(lia)) as H3.
  pose proof (Z.mod_pos_bound (- a) (Zpos p) ltac:(lia)) as H4.
  nia.
Qed.

Lemma decodeAudioData_channels
    (data dataInt16 : list Z) (ctx : AudioContext) (rate : Q) (numChannels : Z) :
  Int16Array data = Some dataInt16 ->
  1 <= numChannels <= maxChannels ctx -> numChannels < 2 ^ 32 ->
  numChannels <= Z.of_nat (length dataInt16) < 2 ^ 32 ->
  Qle_bool (minSampleRate ctx) rate = true ->
  Qle_bool rate (maxSampleRate ctx) = true ->
  exists chans,
    decodeAudioData data ctx rate numChannels = inr (mkBuffer rate chans)
    /\ length chans = Z.to_nat numChannels
    /\ forall c, (c < Z.to_nat numChannels)%nat ->
         exists channelData,
           chans !! c = Some channelData
           /\ length channelData = (length dataInt16 / Z.to_nat numChannels)%nat
           /\ forall i, (i < length dataInt16 / Z.to_nat numChannels)%nat ->
                channelData !! i
                = Some (sample_at dataInt16 (i * Z.to_nat numChannels + c))
                /\ is_Some (dataInt16 !! (i * Z.to_nat numChannels + c)%nat).
Proof.
  intros Hd Hnc Hnc32 Hlen Hmin Hmax. unfold decodeAudioData. rewrite Hd.
  destruct numChannels as [|p|p]; [lia| |lia].
  change (Z.pos p =? 0) with false. cbv iota.
  set (len := Z.of_nat (length dataInt16)) in *.
  assert (Hq : len / Z.pos p = Z.of_nat (length dataInt16 / Z.to_nat (Z.pos p))).
  { unfold len. rewrite Nat2Z.inj_div. by rewrite Z2Nat.id by lia. }
  assert (Hframes : 1 <= len / Z.pos p < 2 ^ 32).
  { split.
    - apply Z.div_le_lower_bound; lia.
    - apply Z.div_lt_upper_bound; nia. }
  assert (Hu1 : ToUint32 (Finite (inject_Z (Z.pos p))) = Z.pos p).
  { unfold ToUint32, trunc, inject_Z. simpl Qnum. simpl Qden.
    rewrite Z.quot_1_r. apply Z.mod_small. lia. }
  assert (Hu2 : ToUint32 (Finite (inject_Z len / inject_Z (Z.pos p))) = len / Z.pos p).
  { unfold ToUint32. rewrite trunc_div by lia. apply Z.mod_small. lia. }
  rewrite Hu1, Hu2. unfold createBuffer.
  replace (1 <=? Z.pos p) with true by (symmetry; apply Z.leb_le; lia).
  replace (Z.pos p <=? maxChannels ctx) with true by (symmetry; apply Z.leb_le; lia).
  replace (1 <=? len / Z.pos p) with true by (symmetry; apply Z.leb_le; lia).
  rewrite Hmin, Hmax. cbn [andb].
  set (count := iterations (Finite (inject_Z len / inject_Z (Z.pos p)))).
  set (chans0 := replicate (Z.to_nat (Z.pos p))
                   (replicate (Z.to_nat (len / Z.pos p)) (Finite 0))).
  destruct (channel_loop dataInt16 (Z.to_nat (Z.pos p)) count rate
              (Z.to_nat (Z.pos p)) chans0)
    as (chans & Hrun & Hl & Hlt & _).
  { unfold chans0. by rewrite length_replicate. }
  exists chans. split; [exact Hrun|].
  split; [by rewrite Hl; unfold chans0; rewrite length_replicate|].
  intros c Hc. rewrite (Hlt c Hc). unfold chans0.
  rewrite lookup_replicate_2 by done. eexists. split; [reflexivity|].
  unfold fill. split.
  - rewrite for_loop_length, length_replicate. lia.
  - intros i Hi. split.
    + apply (for_loop_lookup
               (fun i => sample_at dataInt16 (i * Z.to_nat (Z.pos p) + c))).
      * unfold count, iterations.
        pose proof (ceiling_div len p ltac:(lia)). lia.
      * rewrite length_replicate. lia.
    + apply lookup_lt_is_Some_2.
      pose proof (Nat.Div0.mul_div_le (length dataInt16) (Z.to_nat (Z.pos p))).
      nia.
Qed.

Lemma wrap16_range (n : Z) : -32768 <= wrap16 n < 32768.
Proof. unfold wrap16. Z.to_euclidean_division_equations. lia. Qed.

Lemma wrap16_small (n : Z) : -32768 <= n < 32768 -> wrap16 n = n.
Proof. unfold wrap16. Z.to_euclidean_division_equations. lia. Qed.

Lemma ToInt16_range (x : Number) : -32768 <= ToInt16 x < 32768.
Proof. destruct x; simpl; [apply wrap16_range|lia]. Qed.

Lemma int16_bytes_uint8 (l : list Z) : Forall uint8 (l ≫= int16_bytes).
Proof.
  induction l as [|x l IH]; [constructor|].
  rewrite bind_cons. unfold int16_bytes at 1. simpl.
  repeat (constructor; [unfold uint8; Z.to_euclidean_division_equations; lia|]).
  exact IH.
Qed.

Lemma int16_of_bytes (x : Z) :
  -32768 <= x < 32768 ->
  wrap16 (x mod 65536 mod 256 + 256 * (x mod 65536 / 256)) = x.
Proof.
  intros Hx.
  replace (x mod 65536 mod 256 + 256 * (x mod 65536 / 256)) with (x mod 65536).
  - unfold wrap16. Z.to_euclidean_division_equations. lia.
  - rewrite (Z.div_mod (x mod 65536) 256) at 1 by lia. lia.
Qed.

Lemma Int16Array_bytes (l : list Z) :
  Forall (fun x => -32768 <= x < 32768) l ->
  Int16Array (l ≫= int16_bytes) = Some l.
Proof.
  induction 1 as [|x l Hx _ IH]; [done|].
  rewrite bind_cons. unfold int16_bytes at 1.
  cbn [app Int16Array]. rewrite IH. cbn [mbind option_bind].
  by rewrite int16_of_bytes.
Qed.

(** X17. Samples through the PCM encoder and back: for every array of
    samples that is not empty, and a context that supports one channel at
    the given rate, [decodeAudioData] of the bytes that [decode] gets from
    the blob of [createPcmBlob] succeeds, with one channel that holds, in
    order, each sample scaled to 16 bits and back. *)
Theorem pcm_round_trip (data : list Number) (ctx : AudioContext) (rate : Q) :
  data <> [] -> Z.of_nat (length data) < 2 ^ 32 ->
  1 <= maxChannels ctx ->
  Qle_bool (minSampleRate ctx) rate = true ->
  Qle_bool rate (maxSampleRate ctx) = true ->
  exists bytes,
    decode (blob_data (createPcmBlob data)) = Some bytes
    /\ length bytes = (2 * length data)%nat
    /\ decodeAudioData bytes ctx rate 1 = inr (mkBuffer rate [quantized <$> data]).
Proof.
  intros Hne Hlen Hmax Hr1 Hr2.
  set (int16 := (fun sample => ToInt16 (times sample 32768)) <$> data).
  assert (Hrange : Forall (fun x => -32768 <= x < 32768) int16).
  { apply Forall_fmap, Forall_true. intros x. apply ToInt16_range. }
  exists (int16 ≫= int16_bytes). split.
  { unfold createPcmBlob. simpl. apply decode_of_encode, int16_bytes_uint8. }
  split.
  { unfold int16. clear. induction data as [|x l IH]; [done|].
    rewrite fmap_cons, bind_cons, length_app, IH. simpl. lia. }
  assert (Hl : length int16 = length data) by (unfold int16; by rewrite length_fmap).
  destruct (decodeAudioData_channels (int16 ≫= int16_bytes) int16 ctx rate 1
              (Int16Array_bytes _ Hrange))
    as (chans & Hrun & Hlc & Hch); [lia|reflexivity| |done|done|].
  { rewrite Hl. split; [|exact Hlen]. destruct data; [done|]. simpl length. lia. }
  rewrite Hrun. do 2 f_equal.
  destruct (Hch 0%nat) as (cd & Hcd & Hlcd & Hs); [simpl; lia|].
  change (Z.to_nat 1) with 1%nat in *. rewrite Nat.div_1_r in *.
  destruct chans as [|cd' [|]]; try done.
  simpl in Hcd. injection Hcd as ->. f_equal.
  apply list_eq. intros i. rewrite list_lookup_fmap.
  destruct (decide (i < length data)%nat) as [Hi|Hi].
  - destruct (Hs i) as [-> _]; [lia|].
    rewrite Nat.mul_1_r, Nat.add_0_r.
    unfold sample_at, int16. rewrite list_lookup_fmap.
    destruct (lookup_lt_is_Some_2 data i Hi) as [x ->]. done.
  - rewrite !lookup_ge_None_2 by lia. done.
Qed.

Lemma pcm_round_trip_witness :
  exists bytes,
    decode (blob_data (createPcmBlob [Finite (1 # 2); Finite (- (1 # 4))]))
    = Some bytes
    /\ length bytes = 4%nat
    /\ decodeAudioData bytes (mkContext 32 8000 96000) 16000 1
       = inr (mkBuffer 16000 [quantized <$> [Finite (1 # 2); Finite (- (1 # 4))]]).
Proof.
  apply (pcm_round_trip [Finite (1 # 2); Finite (- (1 # 4))]
           (mkContext 32 8000 96000) 16000);
    [done | simpl; lia | simpl; lia | reflexivity | reflexivity].
Defined.

(** X18. [decodeAudioData] separates the channels of interleaved 16-bit
    samples: with [n] channels (at least one, as many as the context
    supports), at least one whole frame of samples and a supported rate, it
    gives [n] channels of as many samples as there are whole frames, and
    sample [i] of channel [c] is element [i * n + c] of the data over
    32768.  The elements of an incomplete last frame are left out, and no
    sample of the buffer is [NaN]. *)
Theorem decodeAudioData_deinterleaves
    (data dataInt16 : list Z) (ctx : AudioContext) (rate : Q) (numChannels : Z) :
  Int16Array data = Some dataInt16 ->
  1 <= numChannels <= maxChannels ctx -> numChannels < 2 ^ 32 ->
  numChannels <= Z.of_nat (length dataInt16) < 2 ^ 32 ->
  Qle_bool (minSampleRate ctx) rate = true ->
  Qle_bool rate (maxSampleRate ctx) = true ->
  exists buffer,
    decodeAudioData data ctx rate numChannels = inr buffer
    /\ sampleRate buffer = rate
    /\ length (channels buffer) = Z.to_nat numChannels
    /\ forall c, (c < Z.to_nat numChannels)%nat ->
         exists channelData,
           channels buffer !! c = Some channelData
           /\ length channelData = (length dataInt16 / Z.to_nat numChannels)%nat
           /\ forall i, (i < length dataInt16 / Z.to_nat numChannels)%nat ->
                exists x,
                  dataInt16 !! (i * Z.to_nat numChannels + c)%nat = Some x
                  /\ channelData !! i = Some (Finite (inject_Z x / 32768)).
Proof.
  intros Hd Hnc Hnc32 Hlen Hmin Hmax.
  destruct (decodeAudioData_channels data dataInt16 ctx rate numChannels
              Hd Hnc Hnc32 Hlen Hmin Hmax) as (chans & Hrun & Hl & Hch).
  exists (mkBuffer rate chans). split; [done|]. split; [done|]. split; [done|].
  intros c Hc. destruct (Hch c Hc) as (cd & Hcd & Hlcd & Hs).
  exists cd. split; [done|]. split; [done|].
  intros i Hi. destruct (Hs i Hi) as [Hv [x Hx]].
  exists x. split; [done|]. rewrite Hv. unfold sample_at. by rewrite Hx.
Qed.

Lemma decodeAudioData_deinterleaves_witness :
  exists buffer,
    decodeAudioData [1; 0; 2; 0; 3; 0; 4; 0; 5; 0] (mkContext 32 8000 96000) 16000 2
    = inr buffer
    /\ sampleRate buffer = 16000%Q
    /\ length (channels buffer) = 2%nat
    /\ forall c, (c < 2)%nat ->
         exists channelData,
           channels buffer !! c = Some channelData
           /\ length channelData = 2%nat
           /\ forall i, (i < 2)%nat ->
                exists x,
                  [1; 2; 3; 4; 5] !! (i * 2 + c)%nat = Some x
                  /\ channelData !! i = Some (Finite (inject_Z x / 32768)).
Proof.
  apply (decodeAudioData_deinterleaves [1; 0; 2; 0; 3; 0; 4; 0; 5; 0] [1; 2; 3; 4; 5]
           (mkContext 32 8000 96000) 16000 2);
    [reflexivity | simpl; lia | reflexivity | simpl; split; [lia|reflexivity]
    | reflexivity | reflexivity].
Defined.

Lemma trunc_times (q : Q) :
  trunc (q * 32768) = Z.quot (Qnum q * 32768) (Zpos (Qden q)).
Proof. unfold trunc, Qmult. cbn [Qnum Qden]. by rewrite Pos.mul_1_r. Qed.

Lemma quot_close (n : Z) (d : positive) :
  let t := Z.quot (n * 32768) (Zpos d) in
  n * 32768 - Zpos d < Zpos d * t < n * 32768 + Zpos d.
Proof.
  cbv zeta. Z.to_euclidean_division_equations. nia.
Qed.

Lemma quantized_value (q : Q) :
  quantized (Finite q)
  = Finite (inject_Z (wrap16 (Z.quot (Qnum q * 32768) (Zpos (Qden q)))) / 32768).
Proof. unfold quantized, times, ToInt16. by rewrite trunc_times. Qed.

Lemma over_32768 (x : Z) (q : Q) :
  ((inject_Z x / 32768 < q + (1 # 32768))%Q
   <-> x * Zpos (Qden q) < Qnum q * 32768 + Zpos (Qden q))
  /\ ((q - (1 # 32768) < inject_Z x / 32768)%Q
      <-> Qnum q * 32768 - Zpos (Qden q) < x * Zpos (Qden q)).
Proof.
  destruct q as [n d].
  unfold Qlt, Qminus, Qplus, Qopp, Qdiv, Qmult, Qinv, inject_Z. cbn [Qnum Qden].
  rewrite !Pos2Z.inj_mul. lia.
Qed.

(** X19. Scaling to 16 bits rounds towards zero and wraps: a sample from
    -1 (included) to 1 (excluded) comes back less than 1/32768 away from
    itself, as the multiple of 1/32768 next to it towards zero; a sample
    from 1 (included: the full scale) to 2 does not saturate but comes back
    negative, two below that multiple. *)
Theorem sample_quantization (q : Q) :
  ((-1 <= q)%Q -> (q < 1)%Q ->
   exists x,
     quantized (Finite q) = Finite (inject_Z x / 32768)
     /\ x = trunc (q * 32768) /\ -32768 <= x < 32768
     /\ (q - (1 # 32768) < inject_Z x / 32768)%Q
     /\ (inject_Z x / 32768 < q + (1 # 32768))%Q)
  /\ ((1 <= q)%Q -> (q < 2)%Q ->
      exists x,
        quantized (Finite q) = Finite (inject_Z x / 32768)
        /\ x = trunc (q * 32768) - 65536 /\ -32768 <= x < 0).
Proof.
  pose proof (quot_close (Qnum q) (Qden q)) as Hc. cbv zeta in Hc.
  split.
  - intros Hlo Hhi. exists (trunc (q * 32768)).
    rewrite quantized_value, trunc_times.
    assert (Hr : -32768 <= Z.quot (Qnum q * 32768) (Zpos (Qden q)) < 32768).
    { destruct q as [n d]. unfold Qle, Qlt in Hlo, Hhi. cbn [Qnum Qden] in *. nia. }
    rewrite (wrap16_small _ Hr). split; [done|]. split; [done|]. split; [done|].
    destruct (over_32768 (Z.quot (Qnum q * 32768) (Zpos (Qden q))) q) as [H1 H2].
    split; [apply H2|apply H1]; lia.
  - intros Hlo Hhi. exists (trunc (q * 32768) - 65536).
    rewrite quantized_value, trunc_times.
    assert (Hr : 32768 <= Z.quot (Qnum q * 32768) (Zpos (Qden q)) < 65536).
    { destruct q as [n d]. unfold Qle, Qlt in Hlo, Hhi. cbn [Qnum Qden] in *. nia. }
    split; [|split; [done|lia]].
    do 3 f_equal. unfold wrap16. Z.to_euclidean_division_equations. lia.
Qed.

Lemma sample_quantization_witness :
  (exists x,
     quantized (Finite (1 # 3)) = Finite (inject_Z x / 32768)
     /\ x = trunc ((1 # 3) * 32768) /\ -32768 <= x < 32768
     /\ ((1 # 3) - (1 # 32768) < inject_Z x / 32768)%Q
     /\ (inject_Z x / 32768 < (1 # 3) + (1 # 32768))%Q)
  /\ (exists x,
        quantized (Finite 1) = Finite (inject_Z x / 32768)
        /\ x = trunc (1 * 32768) - 65536 /\ -32768 <= x < 0).
Proof.
  split.
  - apply (proj1 (sample_quantization (1 # 3))); reflexivity || (by vm_compute).
  - apply (proj2 (sample_quantization 1)); reflexivity || (by vm_compute).
Defined.

(** ** The action button of [App] *)

Lemma handleSend_audio_side key t now1 date1 now2 date2 :
  preserves audio_side (handleSend key t now1 date1 now2 date2).
Proof. unfold handleSend, translateText. frame. Qed.

Lemma and_snoc (A B C D E : Prop) : E -> A /\ B /\ C /\ D -> A /\ B /\ C /\ D /\ E.
Proof. tauto. Qed.

(** X20. A click on the action button either submits the text or drives
    the recorder, never both.  While the hook is recording or processing,
    the button is the mic button whatever has been typed: the click
    submits nothing and keeps the typed text; while processing it does
    nothing at all.  Otherwise, with a text that [trim] does not empty, it
    submits the text, clears the input and leaves the recorder alone; and
    with a text of white space only (no-break spaces and the other Unicode
    spaces included) the button is the mic button, and the click runs
    [toggleVoice] and keeps the text. *)
Theorem click_sends_or_toggles key now1 date1 now2 date2 (a : App.State) :
  let a' := App.click key now1 date1 now2 date2 a in
  (transcriptions (App.hook a') = transcriptions (App.hook a)
   /\ App.inputText a' = App.inputText a
   \/ audio_side (App.hook a') = audio_side (App.hook a))
  /\ (recorderState (App.hook a) = RECORDING
      \/ recorderState (App.hook a) = PROCESSING ->
      transcriptions (App.hook a') = transcriptions (App.hook a)
      /\ App.inputText a' = App.inputText a)
  /\ (recorderState (App.hook a) = PROCESSING -> a' = a)
  /\ (recorderState (App.hook a) <> RECORDING ->
      recorderState (App.hook a) <> PROCESSING ->
      trim (App.inputText a) <> "" ->
      a' = App.handleSend key now1 date1 now2 date2 a
      /\ App.inputText a' = ""
      /\ audio_side (App.hook a') = audio_side (App.hook a))
  /\ (forall cps,
        blank cps -> App.inputText a = utf8_text cps ->
        recorderState (App.hook a) <> PROCESSING ->
        a' = App.mkState (App.inputText a) (run (toggleVoice key) (App.hook a))).
Proof.
  cbv zeta.
  assert (Hblank : forall cps,
             blank cps -> App.inputText a = utf8_text cps ->
             recorderState (App.hook a) <> PROCESSING ->
             App.click key now1 date1 now2 date2 a
             = App.mkState (App.inputText a) (run (toggleVoice key) (App.hook a))).
  { intros cps Hb Ht Hp. unfold App.click, App.action_button, App.isProcessing.
    rewrite Ht, (trim_blank cps Hb). cbn [truthy String.eqb negb andb].
    by rewrite bool_decide_eq_false_2. }
  apply and_snoc; [exact Hblank|]. clear Hblank.
  unfold App.click, App.action_button, App.isRecording, App.isProcessing.
  destruct a as [t w]. cbn [App.inputText App.hook].
  assert (Hsend : audio_side (App.hook (App.handleSend key now1 date1 now2 date2
                                          (App.mkState t w))) = audio_side w).
  { unfold App.handleSend. cbn [App.inputText App.hook]. unfold run.
    apply handleSend_audio_side. }
  assert (Hmic : transcriptions (run (toggleVoice key) w) = transcriptions w).
  { unfold run. apply toggleVoice_transcriptions. }
  destruct (truthy (Some (trim t))) eqn:Ht;
    repeat case_bool_decide; cbn [andb negb App.inputText App.hook];
    try congruence.
  all: repeat split; try tauto; try congruence; auto.
  all: try (intros [?|?]; congruence).
  all: try (intros; exfalso; simpl in Ht;
            destruct (String.eqb_spec (trim t) ""); congruence).
  all: try (unfold App.handleSend; cbn [App.inputText]; by rewrite Ht).
  all: exfalso; unfold truthy in Ht;
    destruct (String.eqb_spec (trim t) ""); simpl in Ht; congruence.
Qed.

Lemma click_sends_or_toggles_witness :
  App.inputText
    (App.click (Some "key") 1000 1000 1000 1000 (App.mkState "nomoskar" initial))
  = ""
  /\ App.click (Some "key") 1000 1000 1000 1000
       (App.mkState (utf8_text [160; 32]%N) initial)
     = App.mkState (utf8_text [160; 32]%N) (run (toggleVoice (Some "key")) initial).
Proof.
  split.
  - destruct (click_sends_or_toggles (Some "key") 1000 1000 1000 1000
                (App.mkState "nomoskar" initial)) as (_ & _ & _ & H & _).
    destruct H as (_ & Hi & _); [discriminate|discriminate|by vm_compute|exact Hi].
  - destruct (click_sends_or_toggles (Some "key") 1000 1000 1000 1000
                (App.mkState (utf8_text [160; 32]%N) initial)) as (_ & _ & _ & _ & H).
    apply (H [160; 32]%N); [|reflexivity|discriminate].
    unfold blank, white_space. repeat constructor.
Defined.
